(** * clog: the canonical logging context, embedded and verified

    A shallow embedding of [canonical.go] (package [clog]): the ordered,
    hierarchical key/value store that is attached to a [context.Context],
    the path walk of [set], [add] and [addFloat], and the JSON rendering
    behind [MarshalJSON].

    Conventions.
    - A Go [string] is a byte sequence: [string] of [Stdlib.Strings], one
      [ascii] per byte.
    - A Go [int] is a 64-bit two's complement integer: [Z] with the
      wrap-around of [+] written out ([int_add]).
    - A Go [float64] is an IEEE 754 binary64: Rocq's primitive [float].
    - [*orderedmap.OrderedMap[string, any]] is an association list in
      insertion order.  Every nested map is created inside [set]/[add] and
      is referenced by its parent only, so the store is a tree and an update
      through the pointer is the same as writing the updated child back at
      its key (which keeps the key's position).
    - [*canonical] is a pointer into an explicit heap: every carrier derived
      from an initialised one shares the store.
    - A run-time panic is an explicit outcome. *)

From Stdlib Require Import ZArith String Ascii List Floats DecimalString.
From stdpp Require Import base option list strings gmap.

Set Warnings "-register-all,-inexact-float".

(** ** Go's standard library: [strings.ToLower], [strings.Split] *)

(** What the embedding takes from libraries outside the repository, only
    where their text output is table- or algorithm-driven: Unicode case
    mapping of a string that is not pure ASCII, the escaped form of a string
    that needs escaping, and the shortest decimal form of a finite float. *)
Class GoLibrary := {
  (** [strings.Map(unicode.ToLower, s)], reached for non-ASCII input *)
  unicode_ToLower : string → string;
  (** the text of a map key with a byte to escape: [jwriter.Writer.String],
      as [json.Marshal] passes it on after compacting *)
  jwriter_String : string → string;
  (** the text of a string value with a byte to escape: [encoding/json]'s
      string encoder *)
  json_String : string → string;
  (** [encoding/json]'s float encoder on a finite [float64] *)
  json_Float : float → string
}.

Definition byte_lt (c : ascii) (n : N) : bool := (N_of_ascii c <? n)%N.
Definition byte_le (n : N) (c : ascii) : bool := (n <=? N_of_ascii c)%N.

(** [c >= utf8.RuneSelf] is the negation of this. *)
Definition is_ascii (c : ascii) : bool := byte_lt c 128.

(** ['A' <= c && c <= 'Z'] *)
Definition is_upper (c : ascii) : bool := byte_le 65 c && byte_lt c 91.

(** [c += 'a' - 'A'] on an upper-case byte *)
Definition lower_byte (c : ascii) : ascii :=
  if is_upper c then ascii_of_N (N_of_ascii c + 32) else c.

Fixpoint string_forall (p : ascii → bool) (s : string) : bool :=
  match s with
  | EmptyString => true
  | String c s' => p c && string_forall p s'
  end.

Fixpoint string_exists (p : ascii → bool) (s : string) : bool :=
  match s with
  | EmptyString => false
  | String c s' => p c || string_exists p s'
  end.

Fixpoint string_map (f : ascii → ascii) (s : string) : string :=
  match s with
  | EmptyString => EmptyString
  | String c s' => String (f c) (string_map f s')
  end.

(** [strings.ToLower]: the ASCII fast path is Go's own; anything else goes
    through the Unicode tables. *)
Definition ToLower `{GoLibrary} (s : string) : string :=
  if string_forall is_ascii s then
    if string_exists is_upper s then string_map lower_byte s else s
  else unicode_ToLower s.

Definition dot : ascii := ascii_of_nat 46.

(** [strings.Split(s, ".")]: the substrings between the dots, at least one. *)
Fixpoint Split_dot (s : string) : list string :=
  match s with
  | EmptyString => [EmptyString]
  | String c s' =>
      if decide (c = dot) then EmptyString :: Split_dot s'
      else match Split_dot s' with
           | [] => [String c EmptyString]
           | seg :: segs => String c seg :: segs
           end
  end.

(** ** Values and the ordered map *)

(** What an [any] stored in the map holds: the three scalar kinds the
    setters take, or a nested map. *)
Inductive Value : Type :=
| VString (s : string)
| VInt (n : Z)
| VFloat (f : float)
| VMap (m : list (string * Value)).

Definition is_map (v : Value) : bool :=
  match v with VMap _ => true | _ => false end.

Definition is_scalar (v : Value) : bool := negb (is_map v).

(** [orderedmap.OrderedMap[string, V]] of go-ordered-map/v2: [New], [Get],
    and [Set], which overwrites the value of a present key where it stands
    and appends an absent key at the end. *)
Module orderedmap.
Section OrderedMap.
Context {V : Type}.

Definition New : list (string * V) := [].

Fixpoint Get (key : string) (om : list (string * V)) : option V :=
  match om with
  | [] => None
  | (k, v) :: om' => if decide (k = key) then Some v else Get key om'
  end.

Fixpoint Set_ (key : string) (value : V) (om : list (string * V))
  : list (string * V) :=
  match om with
  | [] => [(key, value)]
  | (k, v) :: om' =>
      if decide (k = key) then (k, value) :: om'
      else (k, v) :: Set_ key value om'
  end.

Definition keys (om : list (string * V)) : list string := om.*1.

End OrderedMap.
End orderedmap.

Abbreviation OrderedMap := (list (string * Value)).

(** ** The store: [canonical] and its methods *)

Record canonical := { values : OrderedMap }.

Definition newCanonical : canonical := {| values := orderedmap.New |}.

(** [normalizeKey]: lower-case, then split on the dots. *)
Definition normalizeKey `{GoLibrary} (key : string) : list string :=
  Split_dot (ToLower key).

(** Go's [int] addition: 64 bits, two's complement, silent wrap-around. *)
Definition int_wrap (z : Z) : Z := ((z + 2 ^ 63) mod 2 ^ 64 - 2 ^ 63)%Z.
Definition int_add (a b : Z) : Z := int_wrap (a + b).

(** A method on the map either returns the updated map or panics ([None]).
    A panic of [set], [add] or [addFloat] is the failed type assertion
    [val.( *orderedmap.OrderedMap[string, any])]; it is reached through
    existing maps only (below a map created by the call every [Get]
    misses), so nothing has been written when it happens. *)
Fixpoint set (parts : list string) (state : OrderedMap) (value : Value)
  : option OrderedMap :=
  match parts with
  | [] => None
  | [key] => Some (orderedmap.Set_ key value state)
  | key :: parts' =>
      match orderedmap.Get key state with
      | None =>
          val ← set parts' orderedmap.New value;
          Some (orderedmap.Set_ key (VMap val) state)
      | Some (VMap val) =>
          val' ← set parts' val value;
          Some (orderedmap.Set_ key (VMap val') state)
      | Some _ => None
      end
  end.

(** The leaf step of [add]: the two [if]s in sequence; [val] is the
    result of the one [Get] before both. *)
Definition add_leaf (key : string) (state : OrderedMap) (value : Z)
  : OrderedMap :=
  let val := orderedmap.Get key state in
  let state1 :=
    match val with
    | None => orderedmap.Set_ key (VInt value) state
    | Some _ => state
    end in
  match val with
  | Some (VInt vv) => orderedmap.Set_ key (VInt (int_add vv value)) state1
  | _ => state1
  end.

Fixpoint add (parts : list string) (state : OrderedMap) (value : Z)
  : option OrderedMap :=
  match parts with
  | [] => None
  | [key] => Some (add_leaf key state value)
  | key :: parts' =>
      match orderedmap.Get key state with
      | None =>
          val ← add parts' orderedmap.New value;
          Some (orderedmap.Set_ key (VMap val) state)
      | Some (VMap val) =>
          val' ← add parts' val value;
          Some (orderedmap.Set_ key (VMap val') state)
      | Some _ => None
      end
  end.

Definition addFloat_leaf (key : string) (state : OrderedMap) (value : float)
  : OrderedMap :=
  let val := orderedmap.Get key state in
  let state1 :=
    match val with
    | None => orderedmap.Set_ key (VFloat value) state
    | Some _ => state
    end in
  match val with
  | Some (VFloat vv) =>
      orderedmap.Set_ key (VFloat (PrimFloat.add vv value)) state1
  | _ => state1
  end.

Fixpoint addFloat (parts : list string) (state : OrderedMap) (value : float)
  : option OrderedMap :=
  match parts with
  | [] => None
  | [key] => Some (addFloat_leaf key state value)
  | key :: parts' =>
      match orderedmap.Get key state with
      | None =>
          val ← addFloat parts' orderedmap.New value;
          Some (orderedmap.Set_ key (VMap val) state)
      | Some (VMap val) =>
          val' ← addFloat parts' val value;
          Some (orderedmap.Set_ key (VMap val') state)
      | Some _ => None
      end
  end.

(** ** [json.Marshal] of the store *)

Definition dquote : string := String (ascii_of_nat 34) EmptyString.

(** A byte both encoders copy as it is (HTML escaping is on in both):
    printable ASCII other than the double quote, the backslash, [<], [>]
    and [&]. *)
Definition json_plain (c : ascii) : bool :=
  byte_le 32 c && byte_lt c 128
  && negb (bool_decide (c = ascii_of_nat 34))
  && negb (bool_decide (c = ascii_of_nat 92))
  && negb (bool_decide (c = ascii_of_nat 60))
  && negb (bool_decide (c = ascii_of_nat 62))
  && negb (bool_decide (c = ascii_of_nat 38)).

Definition quoted (s : string) : string := dquote +:+ s +:+ dquote.

Definition encode_key `{GoLibrary} (s : string) : string :=
  if string_forall json_plain s then quoted s else jwriter_String s.

Definition encode_string `{GoLibrary} (s : string) : string :=
  if string_forall json_plain s then quoted s else json_String s.

(** [strconv.AppendInt(b, n, 10)] *)
Definition encode_int (n : Z) : string := NilZero.string_of_int (Z.to_int n).

(** The loop of [OrderedMap.MarshalJSON] over the pairs, the value of each
    already marshalled: a comma before every pair but the first, the key,
    a colon, the value's text; the error of any value is the error of the
    whole. *)
Fixpoint write_pairs `{GoLibrary} (pairs : list (string * option string))
    (first : bool) : option string :=
  match pairs with
  | [] => Some EmptyString
  | (k, ox) :: pairs' =>
      sx ← ox;
      rest ← write_pairs pairs' false;
      Some ((if first then EmptyString else ",")
              +:+ encode_key k +:+ ":" +:+ sx +:+ rest)
  end.

(** The limit of [encoding/json]'s scanner on the objects and arrays open
    at once. *)
Definition maxNestingDepth : Z := 10000.

(** How deep the maps of a value nest: 0 for a scalar, and for a map one
    more than the deepest of its values.  This is the most braces open at
    once in the value's text, a brace inside a string literal not being
    one the scanner counts. *)
Fixpoint nesting (v : Value) : Z :=
  match v with
  | VMap m => 1 + foldr (λ kv d, Z.max (nesting kv.2) d) 0%Z m
  | _ => 0
  end.

(** [json.Marshal] of a stored value; [None] is a returned error.  A NaN
    or an infinite float raises one ([UnsupportedValueError]).  A map is a
    [json.Marshaler]: its text is written by [OrderedMap.MarshalJSON],
    between braces, with [json.Marshal] called again on every value, and
    the encoder then runs the text through its scanner, which raises
    "exceeded max depth" once more than [maxNestingDepth] objects are
    open. *)
Fixpoint marshal `{GoLibrary} (v : Value) : option string :=
  match v with
  | VString s => Some (encode_string s)
  | VInt n => Some (encode_int n)
  | VFloat f =>
      if PrimFloat.is_nan f || PrimFloat.is_infinity f then None
      else Some (json_Float f)
  | VMap m =>
      body ← write_pairs (map (λ kv, (kv.1, marshal kv.2)) m) true;
      if decide (nesting (VMap m) ≤ maxNestingDepth)%Z
      then Some ("{" +:+ body +:+ "}")
      else None
  end.

(** [canonical.string]: the error of [json.Marshal] is dropped, and the
    nil byte slice it comes with converts to the empty string. *)
Definition canonical_string `{GoLibrary} (c : canonical) : string :=
  default EmptyString (marshal (VMap (values c))).

(** ** The carrier: [context.Context] and the heap of stores *)

Definition ptr := nat.

(** A value held in a context: nil, a [*canonical], or a non-nil value of
    any other type. *)
Inductive ctx_value : Type :=
| Nil
| Canonical (c : ptr)
| Foreign (tag : nat).

(** [context.Background()] and [context.WithValue(parent, key, val)].  A key
    is compared with [==]; a key that is not a string never equals
    [contextKey] and behaves like any string other than it. *)
Inductive Context : Type :=
| Background
| WithValue (parent : Context) (key : string) (val : ctx_value).

(** [ctx.Value(key)]: the value of the innermost layer with that key. *)
Fixpoint ctx_Value (ctx : Context) (key : string) : ctx_value :=
  match ctx with
  | Background => Nil
  | WithValue parent k val =>
      if decide (k = key) then val else ctx_Value parent key
  end.

Definition contextKey : string := "__clog__".

(** The type assertion [ctx.Value(contextKey).( *canonical)]. *)
Definition assert_canonical (v : ctx_value) : option ptr :=
  match v with Canonical c => Some c | _ => None end.

Abbreviation Heap := (gmap ptr canonical).

(** A call either returns a result and leaves a heap, or panics. *)
Inductive outcome (A : Type) : Type :=
| Returns (a : A) (h : Heap)
| Panics.
Arguments Returns {A} a h.
Arguments Panics {A}.

Definition M (A : Type) : Type := Heap → outcome A.

Definition ret {A} (a : A) : M A := λ h, Returns a h.

Definition bind {A B} (f : A → M B) (m : M A) : M B :=
  λ h, match m h with
       | Returns a h' => f a h'
       | Panics => Panics
       end.

#[global] Instance M_ret : MRet M := @ret.
#[global] Instance M_bind : MBind M := @bind.

(** A method call [c.f(...)] that updates [c.values] in place; [c] nil (no
    such cell) is a nil dereference. *)
Definition update_values (c : ptr) (f : OrderedMap → option OrderedMap)
  : M unit :=
  λ h, match h !! c with
       | None => Panics
       | Some cv =>
           match f (values cv) with
           | Some m => Returns tt (<[c := {| values := m |}]> h)
           | None => Panics
           end
       end.

(** A scalar as a setter takes it. *)
Inductive scalar : Type :=
| SString (value : string)
| SInt (value : Z)
| SFloat (value : float).

Definition scalar_value (x : scalar) : Value :=
  match x with
  | SString s => VString s
  | SInt n => VInt n
  | SFloat f => VFloat f
  end.

Section API.
Context `{GoLibrary}.

Definition setString (c : ptr) (key value : string) : M unit :=
  update_values c (λ vs, set (normalizeKey key) vs (VString value)).

Definition setInt (c : ptr) (key : string) (value : Z) : M unit :=
  update_values c (λ vs, set (normalizeKey key) vs (VInt value)).

Definition setFloat64 (c : ptr) (key : string) (value : float) : M unit :=
  update_values c (λ vs, set (normalizeKey key) vs (VFloat value)).

Definition addInt (c : ptr) (key : string) (value : Z) : M unit :=
  update_values c (λ vs, add (normalizeKey key) vs value).

Definition addFloat64 (c : ptr) (key : string) (value : float) : M unit :=
  update_values c (λ vs, addFloat (normalizeKey key) vs value).

Definition string_ (c : ptr) : M string :=
  λ h, match h !! c with
       | None => Panics
       | Some cv => Returns (canonical_string cv) h
       end.

(** [Init]: attach a new store unless [ctx.Value(contextKey)] is non-nil. *)
Definition Init (ctx : Context) : M Context :=
  λ h, match ctx_Value ctx contextKey with
       | Nil =>
           let c := fresh (dom h) in
           Returns (WithValue ctx contextKey (Canonical c))
                   (<[c := newCanonical]> h)
       | _ => Returns ctx h
       end.

Definition MarshalJSON (ctx : Context) : M string :=
  match assert_canonical (ctx_Value ctx contextKey) with
  | Some c => string_ c
  | None => ret EmptyString
  end.

Definition SetString (ctx : Context) (key value : string) : M unit :=
  match assert_canonical (ctx_Value ctx contextKey) with
  | Some c => setString c key value
  | None => ret tt
  end.

Definition SetInt (ctx : Context) (key : string) (value : Z) : M unit :=
  match assert_canonical (ctx_Value ctx contextKey) with
  | Some c => setInt c key value
  | None => ret tt
  end.

Definition SetFloat64 (ctx : Context) (key : string) (value : float)
  : M unit :=
  match assert_canonical (ctx_Value ctx contextKey) with
  | Some c => setFloat64 c key value
  | None => ret tt
  end.

Definition AddInt (ctx : Context) (key : string) (value : Z) : M unit :=
  match assert_canonical (ctx_Value ctx contextKey) with
  | Some c => addInt c key value
  | None => ret tt
  end.

Definition AddFloat64 (ctx : Context) (key : string) (value : float)
  : M unit :=
  match assert_canonical (ctx_Value ctx contextKey) with
  | Some c => addFloat64 c key value
  | None => ret tt
  end.

(** The three setters as one operation on a tagged scalar. *)
Definition SetScalar (ctx : Context) (key : string) (x : scalar) : M unit :=
  match x with
  | SString value => SetString ctx key value
  | SInt value => SetInt ctx key value
  | SFloat value => SetFloat64 ctx key value
  end.

(** A sequence of setter calls, in order. *)
Fixpoint SetAll (ctx : Context) (ops : list (string * scalar)) : M unit :=
  match ops with
  | [] => mret tt
  | (key, x) :: ops' => SetScalar ctx key x ;; SetAll ctx ops'
  end.

End API.

(** ** Carriers and their stores *)

(** The carrier holds the store at [c], whose map is [state]. *)
Definition attached (ctx : Context) (h : Heap) (c : ptr) (state : OrderedMap)
  : Prop :=
  ctx_Value ctx contextKey = Canonical c ∧ h !! c = Some {| values := state |}.

(** The carrier holds no store: the type assertion of the accessors fails. *)
Definition no_store (ctx : Context) : Prop :=
  assert_canonical (ctx_Value ctx contextKey) = None.

(** A [*canonical] held in a context is never nil: it points to a cell. *)
Definition live (ctx : Context) (h : Heap) : Prop :=
  ∀ c, ctx_Value ctx contextKey = Canonical c → is_Some (h !! c).

(** The heap with the map of the store at [c] replaced. *)
Definition store (c : ptr) (state : OrderedMap) (h : Heap) : Heap :=
  <[c := {| values := state |}]> h.

(** ** Observing the store *)

(** The value a path of segments leads to, from a value: the value itself
    for the empty path, otherwise down through nested maps. *)
Fixpoint at_path (parts : list string) (v : Value) : option Value :=
  match parts with
  | [] => Some v
  | key :: parts' =>
      match v with
      | VMap m => orderedmap.Get key m ≫= at_path parts'
      | _ => None
      end
  end.

(** Some segment of [parts] before the last holds a value that is not a
    map. *)
Fixpoint blocked (parts : list string) (state : OrderedMap) : bool :=
  match parts with
  | [] => false
  | [key] => false
  | key :: parts' =>
      match orderedmap.Get key state with
      | Some (VMap val) => blocked parts' val
      | Some _ => true
      | None => false
      end
  end.

(** Every segment of [parts] before the last is absent or holds a map:
    whatever a proper prefix of the path leads to is a map. *)
Definition clear_path (parts : list string) (state : OrderedMap) : Prop :=
  ∀ q v, q `prefix_of` parts → q ≠ parts →
         at_path q (VMap state) = Some v → is_map v = true.

(** The walk that [set], [add] and [addFloat] each spell out, with the
    step at the last segment as a parameter. *)
Fixpoint walk (leaf : string → OrderedMap → OrderedMap)
    (parts : list string) (state : OrderedMap) : option OrderedMap :=
  match parts with
  | [] => None
  | [key] => Some (leaf key state)
  | key :: parts' =>
      match orderedmap.Get key state with
      | None =>
          val ← walk leaf parts' orderedmap.New;
          Some (orderedmap.Set_ key (VMap val) state)
      | Some (VMap val) =>
          val' ← walk leaf parts' val;
          Some (orderedmap.Set_ key (VMap val') state)
      | Some _ => None
      end
  end.

(** The map a path leads to, the empty map where the path leads nowhere. *)
Definition map_at (parts : list string) (state : OrderedMap) : OrderedMap :=
  match at_path parts (VMap state) with
  | Some (VMap m) => m
  | _ => []
  end.

(** ** Sequences of setter calls *)

(** [set] for each path and value of a list, in order. *)
Fixpoint set_all (sets : list (list string * Value)) (state : OrderedMap)
  : option OrderedMap :=
  match sets with
  | [] => Some state
  | (parts, value) :: sets' =>
      state' ← set parts state value; set_all sets' state'
  end.

Definition path_value `{GoLibrary} (op : string * scalar)
  : list string * Value :=
  (normalizeKey op.1, scalar_value op.2).

(** The normalised keys of a sequence of setter calls. *)
Definition paths_of `{GoLibrary} (ops : list (string * scalar))
  : list (list string) :=
  (λ op, normalizeKey op.1) <$> ops.

(** No path is a proper prefix of another. *)
Definition prefix_free (paths : list (list string)) : Prop :=
  ∀ p q, p ∈ paths → q ∈ paths → p `prefix_of` q → p = q.

(** [json.Marshal] takes the scalar: it is not a NaN or infinite float. *)
Definition json_encodable (x : scalar) : bool :=
  match x with
  | SFloat f => negb (PrimFloat.is_nan f || PrimFloat.is_infinity f)
  | _ => true
  end.

(** The segment of [parts] right after [p], when [p] is a proper prefix. *)
Fixpoint next_segment (p parts : list string) : option string :=
  match p, parts with
  | [], k :: _ => Some k
  | a :: p', b :: parts' =>
      if decide (a = b) then next_segment p' parts' else None
  | _, [] => None
  end.

(** The keys of a list in the order of their first occurrence. *)
Definition insertion_order (ks : list string) : list string :=
  foldl (λ seen k, if decide (k ∈ seen) then seen else seen ++ [k]) [] ks.

(** What holds of the store once the sets [sets] are done. *)
Definition reflects (sets : list (list string * Value)) (state : OrderedMap)
  : Prop :=
  (∀ p v, (p, v) ∈ sets → at_path p (VMap state) = Some v) ∧
  (∀ p v, at_path p (VMap state) = Some v → is_scalar v = true →
          (p, v) ∈ sets) ∧
  (∀ p, orderedmap.keys (map_at p state)
        = insertion_order (omap (next_segment p) sets.*1)).

(** The path is neither a prefix of one already set, nor one of them a
    prefix of it. *)
Definition apart (parts : list string) (sets : list (list string * Value))
  : Prop :=
  ∀ p, p ∈ sets.*1 → ¬ p `prefix_of` parts ∧ ¬ parts `prefix_of` p.

(** What the store holds after [Init] on the carrier [ctx0] and the calls
    [ops], and what [MarshalJSON] then returns: the store is a new one, the
    text is that of its map, every key's path leads to the value set for
    it, every scalar is one that was set, and the keys of the map at any
    path are the next segments of the keys passing through it, in the order
    of their first insertion. *)
Definition serialises_as_set `{GoLibrary} (ctx0 : Context) (h0 : Heap)
    (ops : list (string * scalar)) : Prop :=
  ∃ c state s,
    h0 !! c = None ∧
    (ctx ← Init ctx0; SetAll ctx ops;; MarshalJSON ctx) h0
    = Returns s (store c state h0) ∧
    marshal (VMap state) = Some s ∧
    (∀ key x, (key, x) ∈ ops →
       at_path (normalizeKey key) (VMap state) = Some (scalar_value x)) ∧
    (∀ p v, at_path p (VMap state) = Some v → is_scalar v = true →
       ∃ key x, (key, x) ∈ ops ∧ normalizeKey key = p ∧ scalar_value x = v) ∧
    (∀ p, orderedmap.keys (map_at p state)
          = insertion_order (omap (next_segment p) (paths_of ops))).

(** ** Calls on a carrier, as data *)

(** One call of an exported setter or adder. *)
Inductive call : Type :=
| CallSet (key : string) (x : scalar)
| CallAddInt (key : string) (value : Z)
| CallAddFloat64 (key : string) (value : float).

Definition call_key (cl : call) : string :=
  match cl with
  | CallSet key _ | CallAddInt key _ | CallAddFloat64 key _ => key
  end.

Section calls.
Context `{GoLibrary}.

Definition do_call (ctx : Context) (cl : call) : M unit :=
  match cl with
  | CallSet key x => SetScalar ctx key x
  | CallAddInt key value => AddInt ctx key value
  | CallAddFloat64 key value => AddFloat64 ctx key value
  end.

(** The calls of a list, in order. *)
Fixpoint do_calls (ctx : Context) (calls : list call) : M unit :=
  match calls with
  | [] => mret tt
  | cl :: calls' => do_call ctx cl ;; do_calls ctx calls'
  end.

End calls.

(** What a call does at the last segment of its path. *)
Definition call_leaf (cl : call) : string → OrderedMap → OrderedMap :=
  match cl with
  | CallSet _ x => λ key st, orderedmap.Set_ key (scalar_value x) st
  | CallAddInt _ value => λ key st, add_leaf key st value
  | CallAddFloat64 _ value => λ key st, addFloat_leaf key st value
  end.

(** A last step that either leaves a map with the key in it as it is, or
    writes a scalar at the key. *)
Definition tame (leaf : string → OrderedMap → OrderedMap) : Prop :=
  ∀ key m,
    (leaf key m = m ∧ is_Some (orderedmap.Get key m)) ∨
    ∃ v, is_scalar v = true ∧ leaf key m = orderedmap.Set_ key v m.

(** The keys of every map of the store are pairwise distinct. *)
Definition keys_unique (state : OrderedMap) : Prop :=
  ∀ p, NoDup (orderedmap.keys (map_at p state)).

(** A float that [json.Marshal] refuses. *)
Definition not_finite (f : float) : bool :=
  PrimFloat.is_nan f || PrimFloat.is_infinity f.

(** [strings.Join(parts, ".")] *)
Fixpoint Join_dot (parts : list string) : string :=
  match parts with
  | [] => EmptyString
  | [seg] => seg
  | seg :: parts' => seg +:+ String dot (Join_dot parts')
  end.

(** No byte of the segment is a dot; no byte is an upper-case letter. *)
Definition no_dot (seg : string) : bool :=
  string_forall (λ c, negb (bool_decide (c = dot))) seg.

Definition no_upper (seg : string) : bool :=
  negb (string_exists is_upper seg).

(** What a scalar becomes when an [int], or a [float64], is added to it:
    the sum for a scalar of the same kind, the scalar itself otherwise. *)
Definition plus_int (x : scalar) (delta : Z) : scalar :=
  match x with
  | SInt n => SInt (int_add n delta)
  | _ => x
  end.

Definition plus_float (x : scalar) (delta : float) : scalar :=
  match x with
  | SFloat f => SFloat (PrimFloat.add f delta)
  | _ => x
  end.

(** ** The HTTP middleware: [CanonicalLogger] *)

(** [strconv.Atoi] with its error dropped, as the middleware calls it: the
    [int] it returns for a header value. *)
Class Strconv := { Atoi : string → Z }.

(** What the middleware reads of an [*http.Request]: the method, the path
    of the URL, and the context. *)
Record Request := {
  Method : string;
  URL_Path : string;
  Request_Context : Context
}.

(** [r.WithContext(ctx)] *)
Definition WithContext (r : Request) (ctx : Context) : Request :=
  {| Method := Method r; URL_Path := URL_Path r; Request_Context := ctx |}.

(** What the middleware observes of the wrapped handler once it has
    returned: [r.Header.Get("Content-Length")] and
    [w.Header().Get("Content-Length")] as the handler left them (the empty
    string for a header that is not set), the codes it passed to
    [WriteHeader] of the response writer it was given, in order, and
    [time.Since(start).Milliseconds()]. *)
Record Served := {
  request_Content_Length : string;
  response_Content_Length : string;
  WriteHeader_codes : list Z;
  Milliseconds : Z
}.

Record loggingResponseWriter := { statusCode : Z }.

(** [WriteHeader] keeps the code; passing it on to the wrapped writer is
    not seen by the middleware. *)
Definition WriteHeader (lrw : loggingResponseWriter) (code : Z)
  : loggingResponseWriter :=
  {| statusCode := code |}.

(** The wrapped handler runs on the request, with the heap at hand, and
    may panic; [logFn] is any function of the string. *)
Record CanonicalLogger := {
  wrapped : Request → M Served;
  logFn : string → M unit
}.

(** [NewCanonicalLogger]: a logger, or the value it panics with; a nil
    argument is [None]. *)
Definition NewCanonicalLogger (wrapped : option (Request → M Served))
    (logFn : option (string → M unit)) : CanonicalLogger + string :=
  match logFn with
  | None => inr "logFn cannot be nil"
  | Some f =>
      match wrapped with
      | None => inr "wrapped cannot be nil"
      | Some w => inl {| wrapped := w; logFn := f |}
      end
  end.

(** The paths of the two fields [ServeHTTP] sets before the handler runs,
    with their values, and of the four it sets after. *)
Definition request_fields (r : Request) : list (list string * Value) :=
  [(["http"; "request"; "method"], VString (Method r));
   (["http"; "request"; "path"], VString (URL_Path r))].

Definition response_paths : list (list string) :=
  [["http"; "response"; "duration_ms"];
   ["http"; "request"; "body_bytes"];
   ["http"; "response"; "body_bytes"];
   ["http"; "response"; "status_code"]].

Section middleware.
Context `{GoLibrary} `{Strconv}.

Definition ServeHTTP (cl : CanonicalLogger) (r : Request) : M unit :=
  ctx ← Init (Request_Context r);
  let r := WithContext r ctx in
  SetString (Request_Context r) "http.request.method" (Method r);;
  SetString (Request_Context r) "http.request.path" (URL_Path r);;
  served ← wrapped cl r;
  let resp :=
    foldl WriteHeader {| statusCode := 0 |} (WriteHeader_codes served) in
  SetInt (Request_Context r) "http.response.duration_ms"
    (Milliseconds served);;
  SetInt (Request_Context r) "http.request.body_bytes"
    (Atoi (request_Content_Length served));;
  SetInt (Request_Context r) "http.response.body_bytes"
    (Atoi (response_Content_Length served));;
  SetInt (Request_Context r) "http.response.status_code" (statusCode resp);;
  log ← MarshalJSON (Request_Context r);
  logFn cl log.

End middleware.

(** ** Concrete data *)

(** An instance for running the model on plain ASCII data, where the
    library functions are never reached: each is the identity on its
    input (the float encoder prints nothing). *)
Definition ascii_only : GoLibrary := {|
  unicode_ToLower s := s;
  jwriter_String s := s;
  json_String s := s;
  json_Float _ := EmptyString
|}.

(** Writes a JSON text with ['] for the double quote. *)
Definition js (s : string) : string :=
  string_map
    (λ c, if decide (c = ascii_of_nat 39) then ascii_of_nat 34 else c) s.

(** A carrier and its store, two levels deep, with a scalar at
    http.status. *)
Definition ctx1 : Context := WithValue Background contextKey (Canonical 0).

Definition state1 : OrderedMap :=
  [("http", VMap [("request", VMap [("path", VString "/foo")]);
                  ("status", VInt 200)])].

Definition heap1 : Heap := store 0 state1 ∅.

(** An instance for running the middleware: the number a string of
    decimal digits spells, and 0 for any other string.  [strconv.Atoi]
    gives the same for up to 18 digits, and for the empty string and any
    unsigned string with a byte that is not a digit (a syntax error, whose
    value is 0). *)
Definition digit_value (c : ascii) : option Z :=
  if byte_le 48 c && byte_lt c 58 then Some (Z.of_N (N_of_ascii c) - 48)%Z
  else None.

Fixpoint digits_value (acc : Z) (s : string) : option Z :=
  match s with
  | EmptyString => Some acc
  | String c s' => d ← digit_value c; digits_value (acc * 10 + d) s'
  end.

Definition digits_Atoi : Strconv :=
  {| Atoi s := match s with
               | EmptyString => 0%Z
               | _ => default 0%Z (digits_value 0 s)
               end |}.

(** What the handler of the repository's middleware test leaves: no
    Content-Length on the request, 2 on the response, one [WriteHeader]
    with 200, and no time spent. *)
Definition served_ok : Served :=
  {| request_Content_Length := EmptyString;
     response_Content_Length := "2";
     WriteHeader_codes := [200%Z];
     Milliseconds := 0 |}.

Definition GET_test (ctx : Context) : Request :=
  {| Method := "GET"; URL_Path := "/test"; Request_Context := ctx |}.

Section concrete.
Local Existing Instance ascii_only.

(** Three loggers over handlers that return [served_ok]: one that does
    nothing else, one that annotates the context (one key of its own and
    one of the middleware's), one that writes a string at http.response.
    Their [logFn] does nothing. *)
Definition quiet_logger : CanonicalLogger :=
  {| wrapped := λ _, mret served_ok; logFn := λ _, mret tt |}.

Definition annotating_logger : CanonicalLogger :=
  {| wrapped := λ r,
       SetInt (Request_Context r) "user.id" 42;;
       SetInt (Request_Context r) "http.response.status_code" 1;;
       mret served_ok;
     logFn := λ _, mret tt |}.

Definition clobbering_logger : CanonicalLogger :=
  {| wrapped := λ r,
       SetString (Request_Context r) "http.response" "oops";;
       mret served_ok;
     logFn := λ _, mret tt |}.

End concrete.

(** [state1] once the middleware has set method and path, and then once
    each of the two handlers above has run. *)
Definition state1_request : OrderedMap :=
  [("http", VMap [("request", VMap [("path", VString "/test");
                                    ("method", VString "GET")]);
                  ("status", VInt 200)])].

Definition state1_annotated : OrderedMap :=
  [("http", VMap [("request", VMap [("path", VString "/test");
                                    ("method", VString "GET")]);
                  ("status", VInt 200);
                  ("response", VMap [("status_code", VInt 1)])]);
   ("user", VMap [("id", VInt 42)])].

Definition state1_clobbered : OrderedMap :=
  [("http", VMap [("request", VMap [("path", VString "/test");
                                    ("method", VString "GET")]);
                  ("status", VInt 200);
                  ("response", VString "oops")])].

(** The key a.a. ... .a with [n] dots, and the store that one set of it
    leaves on an empty one: [n] maps nested under the first a, the value
    under the last. *)
Fixpoint chain_key (n : nat) : string :=
  match n with
  | O => "a"
  | S n' => String "a"%char (String dot (chain_key n'))
  end.

Fixpoint chain_store (n : nat) (v : Value) : OrderedMap :=
  match n with
  | O => [("a", v)]
  | S n' => [("a", VMap (chain_store n' v))]
  end.

(** A key of one segment more than the scanner lets objects nest. *)
Definition deep_key : string := chain_key (Z.to_nat maxNestingDepth).

(** * Lemmas *)

(** ** The ordered map *)

Module orderedmap_facts.
Import orderedmap.
Section facts.
Context {V : Type}.
Implicit Types (om : list (string * V)) (key : string) (value : V).

Lemma Get_Set_eq key value om : Get key (Set_ key value om) = Some value.
Proof.
  induction om as [|[k v] om IH]; simpl.
  - by rewrite decide_True.
  - destruct (decide (k = key)) as [->|Hne]; simpl.
    + by rewrite decide_True.
    + by rewrite decide_False.
Qed.

Lemma Get_Set_ne key key' value om :
  key ≠ key' → Get key' (Set_ key value om) = Get key' om.
Proof.
  intros Hne. induction om as [|[k v] om IH]; simpl.
  - by rewrite decide_False.
  - destruct (decide (k = key)) as [->|Hk]; simpl.
    + by rewrite !decide_False.
    + by rewrite IH.
Qed.

Lemma Get_Some_keys key om : is_Some (Get key om) ↔ key ∈ keys om.
Proof.
  unfold keys. induction om as [|[k v] om IH]; csimpl.
  - split; [intros [? [=]] | by intros ?%elem_of_nil].
  - destruct (decide (k = key)) as [->|Hk].
    + split; [intros _; left | by eauto].
    + rewrite IH. split; [by right | ].
      intros [?|?]%elem_of_cons; [congruence | done].
Qed.

Lemma Get_None_keys key om : Get key om = None ↔ key ∉ keys om.
Proof. rewrite <- Get_Some_keys, eq_None_not_Some. done. Qed.

(** A present key keeps its place; an absent one goes last. *)
Lemma keys_Set key value om :
  keys (Set_ key value om) =
  match Get key om with Some _ => keys om | None => keys om ++ [key] end.
Proof.
  unfold keys. induction om as [|[k v] om IH]; csimpl; [done|].
  destruct (decide (k = key)) as [->|Hk]; csimpl; [done|].
  rewrite IH. by destruct (Get key om).
Qed.

Lemma Set_Set key value1 value2 om :
  Set_ key value2 (Set_ key value1 om) = Set_ key value2 om.
Proof.
  induction om as [|[k v] om IH]; simpl.
  - by rewrite decide_True.
  - destruct (decide (k = key)) as [->|Hk]; simpl.
    + by rewrite decide_True.
    + by rewrite decide_False, IH.
Qed.

Lemma Set_same key value om : Get key om = Some value → Set_ key value om = om.
Proof.
  induction om as [|[k v] om IH]; simpl; [done|].
  destruct (decide (k = key)) as [->|Hk]; [by intros [= ->] | ].
  intros ?. by rewrite IH.
Qed.

Lemma NoDup_keys_Set key value om :
  NoDup (keys om) → NoDup (keys (Set_ key value om)).
Proof.
  intros Hnd. rewrite keys_Set.
  destruct (Get key om) eqn:HG; [done|].
  apply NoDup_app. split_and!; [done | | apply NoDup_singleton].
  intros k Hk ->%list_elem_of_singleton.
  by apply Get_None_keys in HG.
Qed.

End facts.
End orderedmap_facts.

(** ** Paths *)

Section path_facts.
Import orderedmap orderedmap_facts.
Implicit Types (parts p q : list string) (state m : OrderedMap) (v : Value).

Lemma at_path_app p q v : at_path (p ++ q) v = at_path p v ≫= at_path q.
Proof.
  revert v. induction p as [|k p IH]; intros v; simpl; [done|].
  destruct v as [| | |m]; try done.
  destruct (Get k m) as [x|]; simpl; [apply IH | done].
Qed.

Lemma at_path_scalar p v : is_scalar v = true → p ≠ [] → at_path p v = None.
Proof. destruct p, v; naive_solver. Qed.

Lemma at_path_empty p : p ≠ [] → at_path p (VMap []) = None.
Proof. by destruct p. Qed.

Lemma map_at_nil state : map_at [] state = state.
Proof. done. Qed.

Lemma map_at_empty p : map_at p [] = [].
Proof. unfold map_at. destruct p; [done|]. by rewrite at_path_empty. Qed.

Lemma map_at_cons k p state :
  map_at (k :: p) state =
  match Get k state with Some (VMap m) => map_at p m | _ => [] end.
Proof.
  unfold map_at; simpl. destruct (Get k state) as [[| | |m]|]; simpl; try done.
  all: destruct p; done.
Qed.

(** Reading below [q] is reading in the map at [q]. *)
Lemma at_path_below q k r state :
  at_path (q ++ k :: r) (VMap state) = at_path (k :: r) (VMap (map_at q state)).
Proof.
  rewrite at_path_app. unfold map_at.
  destruct (at_path q (VMap state)) as [[| | |m]|]; done.
Qed.

Lemma prefix_snoc_inv {A} (q p : list A) x :
  q `prefix_of` p ++ [x] → q = p ++ [x] ∨ q `prefix_of` p.
Proof.
  intros [r Hr]. destruct (decide (r = [])) as [->|Hne].
  - left. by rewrite app_nil_r in Hr.
  - right. destruct (exists_last Hne) as (r' & y & ->).
    rewrite !app_assoc in Hr. apply app_inj_tail in Hr as [-> _].
    by eexists.
Qed.

(** [blocked] read through [at_path]: a proper prefix of the path leads to
    a value that is not a map. *)
Lemma blocked_spec parts state :
  blocked parts state = true ↔
  ∃ q v, q `prefix_of` parts ∧ q ≠ parts ∧
         at_path q (VMap state) = Some v ∧ is_scalar v = true.
Proof.
  revert state. induction parts as [|k parts IH]; intros state.
  { split; [done|]. intros (q & v & ?%prefix_nil_inv & ? & _); congruence. }
  destruct parts as [|k' r].
  { split; [done|]. intros (q & v & Hq & Hne & Hv & Hs).
    destruct q as [|a q]; [by simplify_eq/=|].
    apply prefix_cons_inv_1 in Hq as ?; subst a.
    apply prefix_cons_inv_2, prefix_nil_inv in Hq. congruence. }
  change (blocked (k :: k' :: r) state) with
    (match Get k state with
     | Some (VMap val) => blocked (k' :: r) val
     | Some _ => true
     | None => false
     end).
  split.
  - destruct (Get k state) as [x|] eqn:HG; [|done].
    destruct x as [s|n|f|m].
    4: { intros (q & v & Hq & Hne & Hv & Hs)%IH.
         exists (k :: q), v. split_and!; [by apply prefix_cons | congruence | | done].
         simpl. by rewrite HG. }
    all: intros _; eexists [k], _; split_and!;
      [ by apply prefix_cons, prefix_nil | done | simpl; by rewrite HG | done ].
  - intros (q & v & Hq & Hne & Hv & Hs).
    destruct q as [|a q]; [by simplify_eq/=|].
    apply prefix_cons_inv_1 in Hq as ?; subst a.
    apply prefix_cons_inv_2 in Hq. simpl in Hv.
    destruct (Get k state) as [x|]; [|done]. simpl in Hv.
    destruct x as [s|n|f|m]; try done.
    apply IH. exists q, v. split_and!; [done | congruence | done | done].
Qed.

Lemma clear_path_blocked parts state :
  clear_path parts state ↔ blocked parts state = false.
Proof.
  rewrite <- not_true_iff_false, blocked_spec. unfold clear_path, is_scalar.
  split.
  - intros Hc (q & v & Hq & Hne & Hv & Hs). apply (Hc q v) in Hv; [|done..].
    by rewrite Hv in Hs.
  - intros Hn q v Hq Hne Hv. destruct (is_map v) eqn:Hm; [done|].
    destruct Hn. exists q, v. by rewrite Hm.
Qed.

Lemma at_path_last q key state :
  at_path (q ++ [key]) (VMap state) = Get key (map_at q state).
Proof. rewrite at_path_below. simpl. by destruct (Get key (map_at q state)). Qed.

Lemma map_at_Get_Some q key state x :
  Get key (map_at q state) = Some x →
  at_path q (VMap state) = Some (VMap (map_at q state)).
Proof.
  unfold map_at. by destruct (at_path q (VMap state)) as [[| | |m]|].
Qed.

End path_facts.

(** ** The walk *)

Section walk_facts.
Import orderedmap orderedmap_facts.
Implicit Types (parts p q r : list string) (state m : OrderedMap) (v : Value).

Lemma walk_cons leaf k k' r state :
  walk leaf (k :: k' :: r) state =
  match Get k state with
  | None => val ← walk leaf (k' :: r) New; Some (Set_ k (VMap val) state)
  | Some (VMap val) =>
      val' ← walk leaf (k' :: r) val; Some (Set_ k (VMap val') state)
  | Some _ => None
  end.
Proof. done. Qed.

(** [set], [add] and [addFloat] are the walk with their own last step. *)
Lemma set_cons k k' r state value :
  set (k :: k' :: r) state value =
  match Get k state with
  | None => val ← set (k' :: r) New value; Some (Set_ k (VMap val) state)
  | Some (VMap val) =>
      val' ← set (k' :: r) val value; Some (Set_ k (VMap val') state)
  | Some _ => None
  end.
Proof. done. Qed.

Lemma set_walk parts state value :
  set parts state value = walk (λ key st, Set_ key value st) parts state.
Proof.
  revert state. induction parts as [|k parts IH]; intros state; [done|].
  destruct parts as [|k' r]; [done|].
  rewrite walk_cons, set_cons.
  destruct (Get k state) as [[| | |m]|]; try done; by rewrite IH.
Qed.

Lemma add_cons k k' r state value :
  add (k :: k' :: r) state value =
  match Get k state with
  | None => val ← add (k' :: r) New value; Some (Set_ k (VMap val) state)
  | Some (VMap val) =>
      val' ← add (k' :: r) val value; Some (Set_ k (VMap val') state)
  | Some _ => None
  end.
Proof. done. Qed.

Lemma add_walk parts state value :
  add parts state value = walk (λ key st, add_leaf key st value) parts state.
Proof.
  revert state. induction parts as [|k parts IH]; intros state; [done|].
  destruct parts as [|k' r]; [done|].
  rewrite walk_cons, add_cons.
  destruct (Get k state) as [[| | |m]|]; try done; by rewrite IH.
Qed.

Lemma addFloat_cons k k' r state value :
  addFloat (k :: k' :: r) state value =
  match Get k state with
  | None => val ← addFloat (k' :: r) New value; Some (Set_ k (VMap val) state)
  | Some (VMap val) =>
      val' ← addFloat (k' :: r) val value; Some (Set_ k (VMap val') state)
  | Some _ => None
  end.
Proof. done. Qed.

Lemma addFloat_walk parts state value :
  addFloat parts state value = walk (λ key st, addFloat_leaf key st value) parts state.
Proof.
  revert state. induction parts as [|k parts IH]; intros state; [done|].
  destruct parts as [|k' r]; [done|].
  rewrite walk_cons, addFloat_cons.
  destruct (Get k state) as [[| | |m]|]; try done; by rewrite IH.
Qed.

Context (leaf : string → OrderedMap → OrderedMap).

(** The walk panics exactly on a blocked path. *)
Lemma walk_None parts state :
  parts ≠ [] → walk leaf parts state = None ↔ blocked parts state = true.
Proof.
  revert state. induction parts as [|k parts IH]; intros state Hne; [done|].
  destruct parts as [|k' r]; [done|].
  rewrite walk_cons.
  change (blocked (k :: k' :: r) state) with
    (match Get k state with
     | Some (VMap val) => blocked (k' :: r) val
     | Some _ => true
     | None => false
     end).
  destruct (Get k state) as [[| | |m]|] eqn:HG; try done.
  - rewrite <- IH by done.
    destruct (walk leaf (k' :: r) m); simpl; done.
  - assert (blocked (k' :: r) New = false) as Hb.
    { apply not_true_is_false. intros (q & v & Hq & Hn & Hv & Hs)%blocked_spec.
      destruct q; [by simplify_eq/= | done]. }
    assert (walk leaf (k' :: r) New ≠ None) as Hw by (rewrite IH; congruence).
    destruct (walk leaf (k' :: r) New); simpl; done.
Qed.

Lemma walk_is_Some parts state :
  parts ≠ [] → blocked parts state = false → is_Some (walk leaf parts state).
Proof.
  intros Hne Hb. apply not_eq_None_Some. rewrite walk_None by done. congruence.
Qed.

(** After the walk the map at the parent of the last segment is the leaf
    step applied to what was there (to the empty map when it was not). *)
Lemma walk_parent q key state state' :
  walk leaf (q ++ [key]) state = Some state' →
  at_path q (VMap state') = Some (VMap (leaf key (map_at q state))).
Proof.
  revert state state'. induction q as [|k q IH]; intros state state'.
  { simpl. by intros [= <-]. }
  assert (∃ k' r, q ++ [key] = k' :: r) as (k' & r & Hq).
  { destruct q; simpl; eauto. }
  rewrite <- app_comm_cons, Hq, walk_cons, <- Hq, map_at_cons.
  destruct (Get k state) as [[| | |m]|] eqn:HG; try done.
  - destruct (walk leaf (q ++ [key]) m) as [val'|] eqn:Hw; [|done].
    intros [= <-]. simpl. rewrite Get_Set_eq. simpl. by apply IH.
  - destruct (walk leaf (q ++ [key]) New) as [val|] eqn:Hw; [|done].
    intros [= <-]. simpl. rewrite Get_Set_eq. simpl.
    apply IH in Hw. by rewrite map_at_empty in Hw.
Qed.

(** Above the last segment, each segment's map gets the next segment
    written into it, holding a map. *)
Lemma walk_prefix p k r state state' :
  walk leaf (p ++ k :: r) state = Some state' → r ≠ [] →
  ∃ sub, at_path p (VMap state') =
         Some (VMap (Set_ k (VMap sub) (map_at p state))).
Proof.
  revert state state'. induction p as [|a p IH]; intros state state' Hw Hr.
  - destruct r as [|k' r]; [done|]. simpl app in Hw. rewrite walk_cons in Hw.
    rewrite map_at_nil. simpl.
    destruct (Get k state) as [[| | |m]|]; try done.
    + destruct (walk leaf (k' :: r) m); simplify_eq/=; eauto.
    + destruct (walk leaf (k' :: r) New); simplify_eq/=; eauto.
  - assert (∃ k' r', p ++ k :: r = k' :: r') as (k' & r' & Hq).
    { destruct p; simpl; eauto. }
    rewrite <- app_comm_cons, Hq, walk_cons, <- Hq in Hw. rewrite map_at_cons.
    destruct (Get a state) as [[| | |m]|] eqn:HG; try done.
    + destruct (walk leaf (p ++ k :: r) m) as [val'|] eqn:Hw'; [|done].
      simplify_eq/=. rewrite Get_Set_eq. simpl. by eapply IH.
    + destruct (walk leaf (p ++ k :: r) New) as [val|] eqn:Hw'; [|done].
      simplify_eq/=. rewrite Get_Set_eq. simpl.
      eapply IH in Hw' as [sub Hsub]; [|done].
      rewrite map_at_empty in Hsub. eauto.
Qed.

(** A path that neither passes through the parent of the last segment nor
    lies above it reads the same before and after. *)
Lemma walk_frame q key p state state' :
  walk leaf (q ++ [key]) state = Some state' →
  ¬ q `prefix_of` p → ¬ p `prefix_of` q →
  at_path p (VMap state') = at_path p (VMap state).
Proof.
  revert p state state'. induction q as [|k q IH]; intros p state state' Hw Hqp Hpq.
  { destruct Hqp. apply prefix_nil. }
  destruct p as [|a p]; [destruct Hpq; apply prefix_nil|].
  assert (∃ k' r, q ++ [key] = k' :: r) as (k' & r & Hq).
  { destruct q; simpl; eauto. }
  rewrite <- app_comm_cons, Hq, walk_cons, <- Hq in Hw.
  simpl.
  destruct (Get k state) as [[| | |m]|] eqn:HG; try done.
  - destruct (walk leaf (q ++ [key]) m) as [val'|] eqn:Hw'; [|done].
    simplify_eq/=. destruct (decide (k = a)) as [->|Hne].
    + rewrite Get_Set_eq, HG. simpl. eapply IH; [done | |].
      * intros ?; apply Hqp; by apply prefix_cons.
      * intros ?; apply Hpq; by apply prefix_cons.
    + by rewrite Get_Set_ne.
  - destruct (walk leaf (q ++ [key]) New) as [val'|] eqn:Hw'; [|done].
    simplify_eq/=. destruct (decide (k = a)) as [->|Hne].
    + rewrite Get_Set_eq, HG. simpl. erewrite IH; [ | done | |].
      * apply at_path_empty. intros ->. apply Hpq, prefix_cons, prefix_nil.
      * intros ?; apply Hqp; by apply prefix_cons.
      * intros ?; apply Hpq; by apply prefix_cons.
    + by rewrite Get_Set_ne.
Qed.

Lemma walk_at_last q key state state' :
  walk leaf (q ++ [key]) state = Some state' →
  at_path (q ++ [key]) (VMap state') = Get key (leaf key (map_at q state)).
Proof.
  intros Hw. rewrite at_path_app, (walk_parent _ _ _ _ Hw). simpl.
  by destruct (Get key _).
Qed.

(** A leaf step that changes nothing leaves the store as it was. *)
Lemma walk_unchanged q key state state' m :
  walk leaf (q ++ [key]) state = Some state' →
  at_path q (VMap state) = Some (VMap m) → leaf key m = m →
  state' = state.
Proof.
  revert state state'. induction q as [|k q IH]; intros state state' Hw Hm Hl.
  { simplify_eq/=. done. }
  assert (∃ k' r, q ++ [key] = k' :: r) as (k' & r & Hq).
  { destruct q; simpl; eauto. }
  rewrite <- app_comm_cons, Hq, walk_cons, <- Hq in Hw. simpl in Hm.
  destruct (Get k state) as [[| | |m0]|] eqn:HG; try done.
  simpl in Hm.
  destruct (walk leaf (q ++ [key]) m0) as [val'|] eqn:Hw'; [|done].
  simplify_eq/=. erewrite (IH m0 val') by done. by apply Set_same.
Qed.

(** A second walk along the same path whose last step does not see what
    the first one's wrote is the second walk alone. *)
Lemma walk_walk (leaf2 : string → OrderedMap → OrderedMap) parts state state1 :
  (∀ key m, leaf2 key (leaf key m) = leaf2 key m) →
  walk leaf parts state = Some state1 →
  walk leaf2 parts state1 = walk leaf2 parts state.
Proof.
  intros Hl. revert state state1.
  induction parts as [|k parts IH]; intros state state1 Hw; [done|].
  destruct parts as [|k' r].
  { simplify_eq/=. by rewrite Hl. }
  rewrite walk_cons in Hw. rewrite !walk_cons.
  destruct (Get k state) as [[| | |m]|] eqn:HG; try done.
  - destruct (walk leaf (k' :: r) m) as [val'|] eqn:Hw'; [|done].
    simpl in Hw. injection Hw as <-. rewrite Get_Set_eq, (IH _ _ Hw').
    destruct (walk leaf2 (k' :: r) m); simpl; [|done]. by rewrite Set_Set.
  - destruct (walk leaf (k' :: r) New) as [val'|] eqn:Hw'; [|done].
    simpl in Hw. injection Hw as <-. rewrite Get_Set_eq, (IH _ _ Hw').
    destruct (walk leaf2 (k' :: r) New); simpl; [|done]. by rewrite Set_Set.
Qed.

End walk_facts.

(** ** [set] along a path *)

Section set_facts.
Import orderedmap orderedmap_facts.
Implicit Types (parts p q r : list string) (state m : OrderedMap) (v : Value).

Lemma set_is_Some parts state value :
  parts ≠ [] → blocked parts state = false → is_Some (set parts state value).
Proof. rewrite set_walk. apply walk_is_Some. Qed.

Lemma set_None parts state value :
  parts ≠ [] → blocked parts state = true → set parts state value = None.
Proof. intros ? ?. rewrite set_walk. by apply walk_None. Qed.

(** The path leads to the value that was set. *)
Lemma set_at_path parts state state' value :
  set parts state value = Some state' →
  at_path parts (VMap state') = Some value.
Proof.
  rewrite set_walk. intros Hw.
  assert (parts ≠ []) as Hne by (by intros ->).
  destruct (exists_last Hne) as (q & key & ->).
  rewrite at_path_app, (walk_parent _ _ _ _ _ Hw). simpl.
  by rewrite Get_Set_eq.
Qed.

(** Every segment of the path is a key of the map above it: the parent map
    is the old one with that one key written, to the value at the last
    segment and to a map before it. *)
Lemma set_map_at p k r state state' value :
  set (p ++ k :: r) state value = Some state' →
  ∃ x, at_path p (VMap state') = Some (VMap (Set_ k x (map_at p state))) ∧
       if decide (r = []) then x = value else is_map x = true.
Proof.
  rewrite set_walk. intros Hw. destruct (decide (r = [])) as [->|Hr].
  - apply walk_parent in Hw. eauto.
  - eapply walk_prefix in Hw as [sub Hsub]; [|done]. eauto.
Qed.

(** A path that is no prefix of the one set and does not pass through it
    reads the same before and after. *)
Lemma set_frame parts p state state' value :
  set parts state value = Some state' →
  ¬ p `prefix_of` parts → ¬ parts `prefix_of` p →
  at_path p (VMap state') = at_path p (VMap state).
Proof.
  rewrite set_walk. intros Hw Hp Hparts.
  assert (parts ≠ []) as Hne by (by intros ->).
  destruct (exists_last Hne) as (q & key & ->).
  destruct (decide (q `prefix_of` p)) as [[r ->]|Hq].
  - destruct r as [|k' r].
    { destruct Hp. rewrite app_nil_r. by apply prefix_app_r. }
    assert (key ≠ k') as Hk.
    { intros ->. apply Hparts. exists r. by rewrite <- app_assoc. }
    rewrite at_path_app, (walk_parent _ _ _ _ _ Hw), at_path_below. simpl.
    by rewrite Get_Set_ne.
  - eapply walk_frame; [done | done | ].
    intros ?. apply Hp. by apply prefix_app_r.
Qed.

(** Below a scalar that was set nothing is found. *)
Lemma set_below parts p state state' value :
  set parts state value = Some state' → is_scalar value = true →
  parts `prefix_of` p → parts ≠ p → at_path p (VMap state') = None.
Proof.
  intros Hs Hv [r ->] Hne. rewrite at_path_app, (set_at_path _ _ _ _ Hs). simpl.
  apply at_path_scalar; [done|]. intros ->. by rewrite app_nil_r in Hne.
Qed.

(** Whether [set] panics does not depend on the value. *)
Lemma set_walk_None parts state value value' :
  set parts state value = None → set parts state value' = None.
Proof.
  destruct (decide (parts = [])) as [->|Hne]; [done|].
  rewrite !set_walk, !walk_None by done. done.
Qed.

(** Two sets on one path: only the second shows. *)
Lemma set_set parts state state1 value1 value2 :
  set parts state value1 = Some state1 →
  set parts state1 value2 = set parts state value2.
Proof.
  rewrite !set_walk. apply walk_walk. intros key m. apply Set_Set.
Qed.

End set_facts.

(** ** Insertion order *)

Section order_facts.
Implicit Types (p q parts : list string) (ks : list string).

Lemma next_segment_Some p parts k :
  next_segment p parts = Some k ↔ ∃ r, parts = p ++ k :: r.
Proof.
  revert parts. induction p as [|a p IH]; intros [|b parts]; simpl.
  - split; [done | by intros [? ?]].
  - split; [intros [= ->]; eauto | by intros [? [= -> _]]].
  - split; [done | by intros [? ?]].
  - destruct (decide (a = b)) as [->|Hne].
    + rewrite IH. split; intros [r Hr]; exists r; congruence.
    + split; [done | intros [r [= ? _]]; congruence].
Qed.

Lemma next_segment_proper p parts :
  p `prefix_of` parts → p ≠ parts → is_Some (next_segment p parts).
Proof.
  intros [[|k r] ->] Hne; [by rewrite app_nil_r in Hne|].
  exists k. apply next_segment_Some. eauto.
Qed.

Lemma insertion_order_snoc ks k :
  insertion_order (ks ++ [k]) =
  if decide (k ∈ insertion_order ks) then insertion_order ks
  else insertion_order ks ++ [k].
Proof. unfold insertion_order. by rewrite foldl_app. Qed.

Lemma elem_of_insertion_order ks k : k ∈ insertion_order ks ↔ k ∈ ks.
Proof.
  induction ks as [|a ks IH] using rev_ind.
  { done. }
  rewrite insertion_order_snoc, elem_of_app, list_elem_of_singleton.
  destruct (decide (a ∈ insertion_order ks)) as [Hin|Hnin].
  - rewrite IH. split; [by left | intros [?| ->]; [done | by apply IH]].
  - by rewrite elem_of_app, list_elem_of_singleton, IH.
Qed.

Lemma NoDup_insertion_order ks : NoDup (insertion_order ks).
Proof.
  induction ks as [|a ks IH] using rev_ind; [constructor|].
  rewrite insertion_order_snoc. case_decide; [done|].
  apply NoDup_app. split_and!; [done | | apply NoDup_singleton].
  by intros x ? ->%list_elem_of_singleton.
Qed.

Lemma omap_snoc {A B} (f : A → option B) l x :
  omap f (l ++ [x]) = omap f l ++ match f x with Some y => [y] | None => [] end.
Proof. rewrite omap_app. simpl. by destruct (f x). Qed.

Lemma omap_nil_all {A B} (f : A → option B) l :
  (∀ x, x ∈ l → f x = None) → omap f l = [].
Proof.
  induction l as [|a l IH]; intros Hall; [done|]. simpl.
  rewrite (Hall a) by left. apply IH. intros x Hx. apply Hall. by right.
Qed.

End order_facts.

(** ** [add] and [addFloat] along a path *)

Section add_facts.
Import orderedmap orderedmap_facts.
Implicit Types (parts p q r : list string) (state m : OrderedMap) (v : Value).

(** After a walk no segment before the last holds anything but a map. *)
Lemma walk_not_blocked leaf parts state state' :
  walk leaf parts state = Some state' → blocked parts state' = false.
Proof.
  intros Hw. apply not_true_is_false.
  intros (q & v & Hq & Hne & Hv & Hs)%blocked_spec.
  destruct (next_segment_proper q parts Hq Hne) as [k Hk].
  apply next_segment_Some in Hk as [r ->].
  destruct (decide (r = [])) as [->|Hr].
  - rewrite (walk_parent _ _ _ _ _ Hw) in Hv. by injection Hv as <-.
  - destruct (walk_prefix _ _ _ _ _ _ Hw Hr) as [sub Hsub].
    rewrite Hsub in Hv. by injection Hv as <-.
Qed.

Lemma add_at_leaf parts state delta :
  parts ≠ [] → blocked parts state = false →
  ∃ state',
    add parts state delta = Some state' ∧
    match at_path parts (VMap state) with
    | None => at_path parts (VMap state') = Some (VInt delta)
    | Some (VInt existing) =>
        at_path parts (VMap state') = Some (VInt (int_add existing delta))
    | Some _ => state' = state
    end.
Proof.
  intros Hne Hclear. rewrite add_walk.
  destruct (walk_is_Some (λ key st, add_leaf key st delta) _ _ Hne Hclear)
    as [state' Hw].
  exists state'. split; [done|].
  destruct (exists_last Hne) as (q & k & ->).
  rewrite (walk_at_last _ _ _ _ _ Hw), at_path_last. unfold add_leaf.
  destruct (Get k (map_at q state)) as [x|] eqn:HG.
  - destruct x; try (eapply walk_unchanged;
      [done | by eapply map_at_Get_Some | unfold add_leaf; by rewrite HG]).
    apply Get_Set_eq.
  - apply Get_Set_eq.
Qed.

Lemma addFloat_at_leaf parts state delta :
  parts ≠ [] → blocked parts state = false →
  ∃ state',
    addFloat parts state delta = Some state' ∧
    match at_path parts (VMap state) with
    | None => at_path parts (VMap state') = Some (VFloat delta)
    | Some (VFloat existing) =>
        at_path parts (VMap state')
        = Some (VFloat (PrimFloat.add existing delta))
    | Some _ => state' = state
    end.
Proof.
  intros Hne Hclear. rewrite addFloat_walk.
  destruct (walk_is_Some (λ key st, addFloat_leaf key st delta) _ _ Hne Hclear)
    as [state' Hw].
  exists state'. split; [done|].
  destruct (exists_last Hne) as (q & k & ->).
  rewrite (walk_at_last _ _ _ _ _ Hw), at_path_last. unfold addFloat_leaf.
  destruct (Get k (map_at q state)) as [x|] eqn:HG.
  - destruct x; try (eapply walk_unchanged;
      [done | by eapply map_at_Get_Some | unfold addFloat_leaf; by rewrite HG]).
    apply Get_Set_eq.
  - apply Get_Set_eq.
Qed.

(** Within the range of [int] the addition is exact. *)
Lemma int_add_exact a b :
  (- 2 ^ 63 ≤ a + b < 2 ^ 63)%Z → int_add a b = (a + b)%Z.
Proof.
  intros Hr. unfold int_add, int_wrap.
  rewrite Z.mod_small by lia. lia.
Qed.

End add_facts.

(** ** The store after a sequence of sets *)

Section sequence_facts.
Import orderedmap orderedmap_facts.
Implicit Types (parts p q : list string) (state : OrderedMap) (v : Value).
Implicit Types (sets : list (list string * Value)).

Lemma reflects_nil : reflects [] [].
Proof.
  split_and!.
  - by intros p v ?%elem_of_nil.
  - intros [|k p] v; simpl; [by intros [= <-] | done].
  - intros p. by rewrite map_at_empty.
Qed.

Lemma reflects_step sets state parts v :
  reflects sets state → is_scalar v = true → parts ≠ [] → apart parts sets →
  ∃ state', set parts state v = Some state' ∧
            reflects (sets ++ [(parts, v)]) state'.
Proof.
  intros (Hin & Hout & Hkeys) Hv Hne Hapart.
  assert (blocked parts state = false) as Hclear.
  { apply not_true_is_false. intros (q & w & Hq & _ & Hw & Hs)%blocked_spec.
    apply Hout in Hw; [|done].
    destruct (Hapart q) as [Hq' _]; [|done].
    apply list_elem_of_fmap. by exists (q, w). }
  destruct (set_is_Some parts state v Hne Hclear) as [state' Hset].
  exists state'. split; [done|]. split_and!.
  - intros p w [Hp|[= -> ->]%list_elem_of_singleton]%elem_of_app.
    + destruct (Hapart p) as [? ?].
      { apply list_elem_of_fmap. by exists (p, w). }
      rewrite (set_frame _ _ _ _ _ Hset) by done. by apply Hin.
    + by eapply set_at_path.
  - intros p w Hw Hs. apply elem_of_app.
    destruct (decide (parts `prefix_of` p)) as [Hpp|Hpp].
    { destruct (decide (parts = p)) as [<-|Hnp].
      - rewrite (set_at_path _ _ _ _ Hset) in Hw. injection Hw as <-.
        right. by apply list_elem_of_singleton.
      - by rewrite (set_below _ _ _ _ _ Hset Hv Hpp Hnp) in Hw. }
    destruct (decide (p `prefix_of` parts)) as [Hpre|Hpre].
    { destruct (next_segment_proper p parts Hpre) as [k Hk].
      { intros ->. by apply Hpp. }
      apply next_segment_Some in Hk as [r ->].
      destruct (set_map_at _ _ _ _ _ _ Hset) as (x & Hx & _).
      rewrite Hx in Hw. injection Hw as <-. done. }
    left. apply Hout; [|done]. by rewrite <- (set_frame _ _ _ _ _ Hset).
  - intros p. rewrite fmap_app.
    change ([(parts, v)].*1) with [parts]. rewrite omap_snoc.
    destruct (next_segment p parts) as [k|] eqn:Hnext.
    + apply next_segment_Some in Hnext as [r ->].
      destruct (set_map_at _ _ _ _ _ _ Hset) as (x & Hx & _).
      unfold map_at at 1. rewrite Hx, keys_Set, insertion_order_snoc, <- Hkeys.
      destruct (Get k (map_at p state)) as [w|] eqn:HG.
      * rewrite decide_True; [done|]. apply Get_Some_keys. by rewrite HG.
      * rewrite decide_False; [done|]. by apply Get_None_keys.
    + rewrite app_nil_r, <- Hkeys.
      destruct (decide (parts `prefix_of` p)) as [Hpp|Hpp].
      * assert (map_at p state' = []) as ->.
        { unfold map_at. destruct (decide (parts = p)) as [<-|Hnp].
          - rewrite (set_at_path _ _ _ _ Hset). by destruct v.
          - by rewrite (set_below _ _ _ _ _ Hset Hv Hpp Hnp). }
        rewrite Hkeys. rewrite omap_nil_all; [done|].
        intros q Hq. apply eq_None_not_Some.
        intros [k [r ->]%next_segment_Some].
        destruct (Hapart _ Hq) as [_ []].
        destruct Hpp as [t ->]. rewrite <- app_assoc. by apply prefix_app_r.
      * assert (¬ p `prefix_of` parts) as Hpre.
        { intros Hpre. destruct (next_segment_proper p parts Hpre) as [? ?];
            [by intros -> | congruence]. }
        unfold map_at. by rewrite (set_frame _ _ _ _ _ Hset).
Qed.

Lemma reflects_all done_ sets state :
  reflects done_ state →
  Forall (λ pv, pv.1 ≠ [] ∧ is_scalar pv.2 = true) sets →
  NoDup (done_ ++ sets).*1 → prefix_free (done_ ++ sets).*1 →
  ∃ state', set_all sets state = Some state' ∧
            reflects (done_ ++ sets) state'.
Proof.
  revert done_ state. induction sets as [|[parts v] sets IH];
    intros done_ state Hrefl Hall Hnd Hpf.
  { exists state. by rewrite app_nil_r. }
  apply Forall_cons in Hall as [[Hne Hv] Hall]. simpl in Hne, Hv.
  assert (apart parts done_) as Hapart.
  { intros p Hp.
    assert (p ≠ parts) as Hneq.
    { intros ->. rewrite fmap_app in Hnd. apply NoDup_app in Hnd as (_ & Hd & _).
      apply (Hd parts Hp). simpl. left. }
    assert (p ∈ (done_ ++ (parts, v) :: sets).*1) as Hp'.
    { rewrite fmap_app. apply elem_of_app. by left. }
    assert (parts ∈ (done_ ++ (parts, v) :: sets).*1) as Hparts.
    { rewrite fmap_app. apply elem_of_app. right. simpl. left. }
    split; intros Hpre.
    - by apply Hneq, Hpf.
    - by apply Hneq; symmetry; apply Hpf. }
  destruct (reflects_step _ _ _ _ Hrefl Hv Hne Hapart) as (state1 & Hset & Hrefl1).
  destruct (IH (done_ ++ [(parts, v)]) state1) as (state' & Hall' & Hrefl');
    [done | done | by rewrite <- app_assoc | by rewrite <- app_assoc |].
  exists state'. simpl. rewrite Hset. simpl. split; [done|].
  by rewrite <- app_assoc in Hrefl'.
Qed.

End sequence_facts.

(** ** When [json.Marshal] succeeds *)

Section marshal_facts.
Context `{GoLibrary}.
Import orderedmap orderedmap_facts.
Implicit Types (parts : list string) (state m : OrderedMap) (v : Value).

Lemma write_pairs_is_Some pairs first :
  is_Some (write_pairs pairs first) ↔ Forall (λ p, is_Some p.2) pairs.
Proof.
  revert first. induction pairs as [|[k ox] pairs IH]; intros first; simpl.
  { split; [constructor | by eauto]. }
  rewrite Forall_cons. simpl. rewrite <- (IH false).
  destruct ox as [sx|]; simpl.
  - destruct (write_pairs pairs false); simpl.
    + split; [by eauto | by eauto].
    + split; [by intros [? ?] | by intros [_ [? ?]]].
  - split; [by intros [? ?] | by intros [[? ?] _]].
Qed.

Lemma nesting_VMap_nil : nesting (VMap []) = 1%Z.
Proof. reflexivity. Qed.

Lemma nesting_VMap_cons k x m :
  nesting (VMap ((k, x) :: m)) = Z.max (1 + nesting x) (nesting (VMap m)).
Proof. cbn [nesting foldr snd]. lia. Qed.

Lemma nesting_VMap_pos m : (1 ≤ nesting (VMap m))%Z.
Proof.
  induction m as [|[k x] m IH]; [by rewrite nesting_VMap_nil|].
  rewrite nesting_VMap_cons. lia.
Qed.

Lemma nesting_nonneg v : (0 ≤ nesting v)%Z.
Proof.
  destruct v as [s|n|f|m]; [done..|]. pose proof (nesting_VMap_pos m). lia.
Qed.

Lemma nesting_scalar x : nesting (scalar_value x) = 0%Z.
Proof. by destruct x. Qed.

Lemma nesting_elem_of k x m :
  (k, x) ∈ m → (1 + nesting x ≤ nesting (VMap m))%Z.
Proof.
  induction m as [|[k' y] m IH]; intros Hin; [by apply elem_of_nil in Hin|].
  rewrite nesting_VMap_cons.
  apply elem_of_cons in Hin as [[= <- <-]|Hin]; [lia|].
  specialize (IH Hin). lia.
Qed.

Lemma Get_Some_elem_of key x m : Get key m = Some x → (key, x) ∈ m.
Proof.
  induction m as [|[k y] m IH]; simpl; [done|].
  destruct (decide (k = key)) as [->|].
  - intros [= ->]. left.
  - intros HG. right. by apply IH.
Qed.

Lemma nesting_Get key x m :
  Get key m = Some x → (1 + nesting x ≤ nesting (VMap m))%Z.
Proof. intros HG. by apply (nesting_elem_of key), Get_Some_elem_of. Qed.

Lemma nesting_Set key v m :
  (nesting (VMap (Set_ key v m))
   ≤ Z.max (nesting (VMap m)) (1 + nesting v))%Z.
Proof.
  induction m as [|[k x] m IH]; simpl Set_.
  { rewrite nesting_VMap_cons, nesting_VMap_nil. pose proof (nesting_nonneg v).
    lia. }
  destruct (decide (k = key)); rewrite !nesting_VMap_cons; lia.
Qed.

(** A set of a scalar nests the store as deep as the path is long, if that
    is deeper than before. *)
Lemma set_nesting parts state state' v :
  nesting v = 0%Z → set parts state v = Some state' →
  (nesting (VMap state') ≤ Z.max (nesting (VMap state)) (Z.of_nat (length parts)))%Z.
Proof.
  intros Hv. revert state state'.
  induction parts as [|k parts IH]; intros state state'; [done|].
  destruct parts as [|k' r].
  { intros [= <-]. pose proof (nesting_Set k v state). simpl length. lia. }
  rewrite set_cons.
  destruct (Get k state) as [[| | |m]|] eqn:HG; try done.
  - destruct (set (k' :: r) m v) as [val'|] eqn:Hs; [|done].
    intros [= <-]. specialize (IH _ _ Hs).
    pose proof (nesting_Set k (VMap val') state).
    pose proof (nesting_Get _ _ _ HG).
    change (length (k :: k' :: r)) with (S (length (k' :: r))). lia.
  - destruct (set (k' :: r) New v) as [val'|] eqn:Hs; [|done].
    intros [= <-]. specialize (IH _ _ Hs).
    pose proof (nesting_Set k (VMap val') state).
    change (nesting (VMap New)) with 1%Z in IH.
    cbn [length] in *. lia.
Qed.

Lemma set_all_nesting sets state state' d :
  Forall (λ pv, nesting pv.2 = 0%Z ∧ (Z.of_nat (length pv.1) ≤ d)%Z) sets →
  (nesting (VMap state) ≤ d)%Z →
  set_all sets state = Some state' → (nesting (VMap state') ≤ d)%Z.
Proof.
  revert state. induction sets as [|[parts v] sets IH]; intros state Hall Hd.
  { by intros [= <-]. }
  apply Forall_cons in Hall as [[Hv Hlen] Hall]. cbn [fst snd] in Hv, Hlen.
  intros Hsa. simpl in Hsa.
  destruct (set parts state v) as [state1|] eqn:Hs; [|done]. simpl in Hsa.
  eapply IH; [done | | done].
  pose proof (set_nesting _ _ _ _ Hv Hs). lia.
Qed.

(** A value at a path lies as deep as the path is long. *)
Lemma at_path_nesting p v w :
  at_path p v = Some w → (Z.of_nat (length p) + nesting w ≤ nesting v)%Z.
Proof.
  revert v. induction p as [|k p IH]; intros v Hp.
  { injection Hp as ->. simpl length. lia. }
  destruct v as [| | |m]; try done. simpl in Hp.
  destruct (Get k m) as [x|] eqn:HG; [|done]. simpl in Hp.
  specialize (IH _ Hp). pose proof (nesting_Get _ _ _ HG).
  change (length (k :: p)) with (S (length p)). lia.
Qed.

Lemma marshal_VMap m :
  marshal (VMap m) =
  body ← write_pairs (map (λ kv, (kv.1, marshal kv.2)) m) true;
  if decide (nesting (VMap m) ≤ maxNestingDepth)%Z
  then Some ("{" +:+ body +:+ "}") else None.
Proof. reflexivity. Qed.

Lemma marshal_VMap_is_Some m :
  is_Some (marshal (VMap m)) ↔
  Forall (λ kv, is_Some (marshal kv.2)) m ∧
  (nesting (VMap m) ≤ maxNestingDepth)%Z.
Proof.
  rewrite marshal_VMap.
  pose proof (write_pairs_is_Some (map (λ kv, (kv.1, marshal kv.2)) m) true)
    as Hw.
  rewrite Forall_map in Hw. cbn [snd] in Hw. rewrite <- Hw.
  destruct (write_pairs _ true) as [body|]; cbn [mbind option_bind].
  - destruct (decide (nesting (VMap m) ≤ maxNestingDepth)%Z) as [Hd|Hd].
    + split; [intros _; split; [by eexists | done] | intros _; by eexists].
    + split; [by intros [? ?] | by intros [_ ?]].
  - split; [by intros [? ?] | by intros [[? ?] _]].
Qed.

Lemma marshal_object m s :
  marshal (VMap m) = Some s → ∃ body, s = "{" +:+ body +:+ "}".
Proof.
  rewrite marshal_VMap. destruct (write_pairs _ true) as [body|]; [|done].
  cbn [mbind option_bind]. destruct (decide _); [|done].
  intros [= <-]. by exists body.
Qed.

Lemma marshal_nesting v :
  is_Some (marshal v) → (nesting v ≤ maxNestingDepth)%Z.
Proof.
  destruct v as [s|n|f|m]; [done..|]. by intros [_ ?]%marshal_VMap_is_Some.
Qed.

Lemma marshal_Set key v m :
  is_Some (marshal v) → (nesting v < maxNestingDepth)%Z →
  is_Some (marshal (VMap m)) →
  is_Some (marshal (VMap (Set_ key v m))).
Proof.
  rewrite !marshal_VMap_is_Some. intros Hv Hd [Hm Hdm]. split.
  - clear Hdm. induction m as [|[k x] m IH]; simpl.
    + by repeat constructor.
    + apply Forall_cons in Hm as [Hx Hm].
      destruct (decide (k = key)); constructor; auto.
  - pose proof (nesting_Set key v m). lia.
Qed.

Lemma marshal_Get key x m :
  is_Some (marshal (VMap m)) → Get key m = Some x → is_Some (marshal x).
Proof.
  rewrite marshal_VMap_is_Some. intros [Hm _]. revert Hm.
  induction m as [|[k y] m IH]; simpl; intros Hm; [done|].
  apply Forall_cons in Hm as [Hy Hm].
  destruct (decide (k = key)); [by intros [= <-] | auto].
Qed.

Lemma marshal_empty : is_Some (marshal (VMap [])).
Proof. by apply marshal_VMap_is_Some. Qed.

Lemma set_marshal parts state state' v :
  is_Some (marshal v) → nesting v = 0%Z →
  (Z.of_nat (length parts) ≤ maxNestingDepth)%Z →
  is_Some (marshal (VMap state)) →
  set parts state v = Some state' → is_Some (marshal (VMap state')).
Proof.
  intros Hv Hv0. revert state state'.
  induction parts as [|k parts IH]; intros state state' Hlen Hm; [done|].
  destruct parts as [|k' r].
  { intros [= <-]. apply marshal_Set; [done | by rewrite Hv0 | done]. }
  change (length (k :: k' :: r)) with (S (length (k' :: r))) in Hlen.
  pose proof (marshal_nesting _ Hm) as Hdm.
  rewrite set_cons.
  destruct (Get k state) as [[| | |m]|] eqn:HG; try done.
  - destruct (set (k' :: r) m v) as [val'|] eqn:Hs; [|done].
    intros [= <-]. apply marshal_Set; [| |done].
    + eapply IH; [lia | | done]. by eapply marshal_Get.
    + pose proof (set_nesting _ _ _ _ Hv0 Hs).
      pose proof (nesting_Get _ _ _ HG). lia.
  - destruct (set (k' :: r) New v) as [val'|] eqn:Hs; [|done].
    intros [= <-]. apply marshal_Set; [| |done].
    + eapply IH; [lia | | done]. apply marshal_empty.
    + pose proof (set_nesting _ _ _ _ Hv0 Hs) as Hn.
      change (nesting (VMap New)) with 1%Z in Hn. cbn [length] in *. lia.
Qed.

Lemma set_all_marshal sets state state' :
  Forall (λ pv, is_Some (marshal pv.2) ∧ nesting pv.2 = 0%Z ∧
                (Z.of_nat (length pv.1) ≤ maxNestingDepth)%Z) sets →
  is_Some (marshal (VMap state)) →
  set_all sets state = Some state' → is_Some (marshal (VMap state')).
Proof.
  revert state. induction sets as [|[parts v] sets IH]; intros state Hall Hm.
  { by intros [= <-]. }
  apply Forall_cons in Hall as [(Hv & Hv0 & Hlen) Hall].
  cbn [fst snd] in Hv, Hv0, Hlen.
  intros Hsa. simpl in Hsa.
  destruct (set parts state v) as [state1|] eqn:Hs; [|done]. simpl in Hsa.
  eapply IH; [done | | done].
  by apply (set_marshal parts state state1 v).
Qed.

Lemma json_encodable_marshal x :
  json_encodable x = true → is_Some (marshal (scalar_value x)).
Proof.
  destruct x as [s|n|f]; simpl; [by eauto..|].
  destruct (PrimFloat.is_nan f || PrimFloat.is_infinity f); [done | by eauto].
Qed.

End marshal_facts.

(** Discharges the depth tests of [marshal] on a store written out. *)
Ltac shallow :=
  repeat (cbn [write_pairs mbind option_bind];
          rewrite decide_True
            by (cbn [nesting foldr snd]; rewrite ?nesting_scalar;
                unfold maxNestingDepth; lia)).

(** ** The exported functions on a carrier *)

Lemma append_assoc (s1 s2 s3 : string) :
  (s1 +:+ s2) +:+ s3 = s1 +:+ s2 +:+ s3.
Proof.
  induction s1 as [|c s1 IH]; [done|].
  change (String c ((s1 +:+ s2) +:+ s3) = String c (s1 +:+ s2 +:+ s3)).
  by rewrite IH.
Qed.

Lemma Split_dot_nonempty s : Split_dot s ≠ [].
Proof.
  induction s as [|c s IH]; simpl; [done|].
  destruct (decide (c = dot)); [done|]. by destruct (Split_dot s).
Qed.

Section api_facts.
Context `{GoLibrary}.
Implicit Types (ctx : Context) (h : Heap) (c : ptr) (state : OrderedMap).

Lemma normalizeKey_nonempty key : normalizeKey key ≠ [].
Proof. apply Split_dot_nonempty. Qed.

Lemma update_values_attached c f h state :
  h !! c = Some {| values := state |} →
  update_values c f h =
  match f state with
  | Some state' => Returns tt (store c state' h)
  | None => Panics
  end.
Proof. intros Hc. unfold update_values. by rewrite Hc. Qed.

Lemma SetScalar_attached ctx h c state key x :
  attached ctx h c state →
  SetScalar ctx key x h =
  match set (normalizeKey key) state (scalar_value x) with
  | Some state' => Returns tt (store c state' h)
  | None => Panics
  end.
Proof.
  intros [Hctx Hc].
  destruct x; unfold SetScalar, SetString, SetInt, SetFloat64;
    rewrite Hctx; simpl; unfold setString, setInt, setFloat64;
    by erewrite update_values_attached.
Qed.

Lemma AddInt_attached ctx h c state key value :
  attached ctx h c state →
  AddInt ctx key value h =
  match add (normalizeKey key) state value with
  | Some state' => Returns tt (store c state' h)
  | None => Panics
  end.
Proof.
  intros [Hctx Hc]. unfold AddInt. rewrite Hctx. simpl. unfold addInt.
  by erewrite update_values_attached.
Qed.

Lemma AddFloat64_attached ctx h c state key value :
  attached ctx h c state →
  AddFloat64 ctx key value h =
  match addFloat (normalizeKey key) state value with
  | Some state' => Returns tt (store c state' h)
  | None => Panics
  end.
Proof.
  intros [Hctx Hc]. unfold AddFloat64. rewrite Hctx. simpl. unfold addFloat64.
  by erewrite update_values_attached.
Qed.

Lemma MarshalJSON_attached ctx h c state :
  attached ctx h c state →
  MarshalJSON ctx h = Returns (canonical_string {| values := state |}) h.
Proof.
  intros [Hctx Hc]. unfold MarshalJSON, string_. rewrite Hctx. simpl.
  by rewrite Hc.
Qed.

Lemma attached_store ctx h c state state' :
  attached ctx h c state → attached ctx (store c state' h) c state'.
Proof.
  intros [Hctx Hc]. split; [done|]. unfold store. apply lookup_insert_eq.
Qed.

(** C7. On a carrier with no attached store every setter and every adder
    returns without touching the heap, and [MarshalJSON] returns the empty
    string. *)
Theorem no_store_silent ctx h :
  no_store ctx →
  (∀ key value, SetString ctx key value h = Returns tt h) ∧
  (∀ key value, SetInt ctx key value h = Returns tt h) ∧
  (∀ key value, SetFloat64 ctx key value h = Returns tt h) ∧
  (∀ key value, AddInt ctx key value h = Returns tt h) ∧
  (∀ key value, AddFloat64 ctx key value h = Returns tt h) ∧
  MarshalJSON ctx h = Returns EmptyString h.
Proof.
  unfold no_store. intros Hno.
  unfold SetString, SetInt, SetFloat64, AddInt, AddFloat64, MarshalJSON.
  rewrite Hno. done.
Qed.

(** C10. [MarshalJSON] returns a string and leaves the heap, so the
    attached store, as it was; called twice in a row it returns the same
    string twice. *)
Theorem MarshalJSON_read_only ctx h :
  live ctx h →
  ∃ s, MarshalJSON ctx h = Returns s h ∧
       (s1 ← MarshalJSON ctx; s2 ← MarshalJSON ctx; mret (s1, s2)) h
       = Returns (s, s) h.
Proof.
  intros Hlive. unfold MarshalJSON.
  destruct (ctx_Value ctx contextKey) as [|c|t] eqn:Hctx; simpl.
  1,3: by exists EmptyString.
  destruct (Hlive c Hctx) as [cv Hcv].
  exists (canonical_string cv). unfold mbind, M_bind, bind, string_.
  rewrite !Hcv. done.
Qed.

(** C8. When a proper prefix of the key's path leads to a value that is
    not a map, each setter panics: the type assertion on that value
    fails. *)
Theorem set_through_scalar_panics ctx h c state key :
  attached ctx h c state →
  (∃ q v, q `prefix_of` normalizeKey key ∧ q ≠ normalizeKey key ∧
          at_path q (VMap state) = Some v ∧ is_scalar v = true) →
  (∀ value, SetString ctx key value h = Panics) ∧
  (∀ value, SetInt ctx key value h = Panics) ∧
  (∀ value, SetFloat64 ctx key value h = Panics).
Proof.
  intros Hatt Hblocked%blocked_spec.
  assert (∀ x, SetScalar ctx key x h = Panics) as Hset.
  { intros x. rewrite (SetScalar_attached _ _ _ _ _ _ Hatt).
    rewrite set_None; [done | apply normalizeKey_nonempty | done]. }
  split_and!; intros value.
  - apply (Hset (SString value)).
  - apply (Hset (SInt value)).
  - apply (Hset (SFloat value)).
Qed.

Lemma Returns_inj {A} (a a' : A) h h' :
  Returns a h = Returns a' h' → a = a' ∧ h = h'.
Proof. by intros [= -> ->]. Qed.

Lemma store_inj c state1 state2 h h' :
  store c state1 h = store c state2 h' → state1 = state2.
Proof.
  intros Heq. apply (f_equal (lookup c)) in Heq. unfold store in Heq.
  rewrite !lookup_insert_eq in Heq. congruence.
Qed.

Lemma store_empty_inj c1 c2 state1 state2 :
  store c1 state1 ∅ = store c2 state2 ∅ → state1 = state2.
Proof.
  intros Heq. apply (f_equal (lookup c1)) in Heq. unfold store in Heq.
  rewrite lookup_insert_eq in Heq. destruct (decide (c2 = c1)) as [->|Hne].
  - rewrite lookup_insert_eq in Heq. congruence.
  - by rewrite lookup_insert_ne in Heq.
Qed.

Lemma store_store c state1 state2 h :
  store c state2 (store c state1 h) = store c state2 h.
Proof. unfold store. apply insert_insert_eq. Qed.

(** C3. On a key whose path is clear, [AddInt] returns and, at the leaf:
    stores the delta when nothing is there; stores [existing + delta] (Go's
    [int] addition) when an [int] is there; leaves the whole store as it
    was when anything else is there.  [AddFloat64] does the same with
    [float64]. *)
Theorem Add_at_leaf ctx h c state key :
  attached ctx h c state →
  clear_path (normalizeKey key) state →
  (∀ delta, ∃ state',
      AddInt ctx key delta h = Returns tt (store c state' h) ∧
      match at_path (normalizeKey key) (VMap state) with
      | None =>
          at_path (normalizeKey key) (VMap state') = Some (VInt delta)
      | Some (VInt existing) =>
          at_path (normalizeKey key) (VMap state')
          = Some (VInt (int_add existing delta))
      | Some _ => state' = state
      end) ∧
  (∀ delta, ∃ state',
      AddFloat64 ctx key delta h = Returns tt (store c state' h) ∧
      match at_path (normalizeKey key) (VMap state) with
      | None =>
          at_path (normalizeKey key) (VMap state') = Some (VFloat delta)
      | Some (VFloat existing) =>
          at_path (normalizeKey key) (VMap state')
          = Some (VFloat (PrimFloat.add existing delta))
      | Some _ => state' = state
      end).
Proof.
  intros Hatt Hclear%clear_path_blocked.
  pose proof (normalizeKey_nonempty key) as Hne.
  split; intros delta.
  - destruct (add_at_leaf _ _ delta Hne Hclear) as (state' & Hadd & Hleaf).
    exists state'. split; [|done].
    by rewrite (AddInt_attached _ _ _ _ _ _ Hatt), Hadd.
  - destruct (addFloat_at_leaf _ _ delta Hne Hclear) as (state' & Hadd & Hleaf).
    exists state'. split; [|done].
    by rewrite (AddFloat64_attached _ _ _ _ _ _ Hatt), Hadd.
Qed.

(** A setter call after a setter call on the same path is the second
    call alone, also when both panic or no store is attached. *)
Lemma SetScalar_SetScalar ctx h key1 key2 x1 x2 :
  normalizeKey key1 = normalizeKey key2 →
  (SetScalar ctx key1 x1 ;; SetScalar ctx key2 x2) h = SetScalar ctx key2 x2 h.
Proof.
  intros Hkeys. unfold mbind, M_bind, bind.
  destruct (ctx_Value ctx contextKey) as [|c|t] eqn:Hctx.
  1,3: by destruct x1, x2; unfold SetScalar, SetString, SetInt, SetFloat64;
    rewrite Hctx.
  destruct (h !! c) as [[state]|] eqn:Hc.
  2: { by destruct x1, x2;
         unfold SetScalar, SetString, SetInt, SetFloat64; rewrite Hctx; simpl;
         unfold setString, setInt, setFloat64, update_values; rewrite Hc. }
  assert (attached ctx h c state) as Hatt by done.
  rewrite !(SetScalar_attached _ _ _ _ _ _ Hatt), Hkeys.
  destruct (set (normalizeKey key2) state (scalar_value x1))
    as [state1|] eqn:Hs1.
  - rewrite (SetScalar_attached _ _ _ _ _ _ (attached_store _ _ _ _ state1 Hatt)).
    rewrite (set_set _ _ _ _ _ Hs1).
    destruct (set (normalizeKey key2) state (scalar_value x2)); [|done].
    by rewrite store_store.
  - by rewrite (set_walk_None _ _ _ (scalar_value x2) Hs1).
Qed.

(** C4. Two setter calls whose keys normalise to the same path amount to
    the second call alone; on a clear path both return, and the path then
    leads to the second value, whatever it led to before. *)
Theorem Set_twice_overwrites ctx h key1 key2 x1 x2 :
  normalizeKey key1 = normalizeKey key2 →
  (SetScalar ctx key1 x1 ;; SetScalar ctx key2 x2) h = SetScalar ctx key2 x2 h ∧
  ∀ c state,
    attached ctx h c state → clear_path (normalizeKey key2) state →
    ∃ state',
      (SetScalar ctx key1 x1 ;; SetScalar ctx key2 x2) h
      = Returns tt (store c state' h) ∧
      at_path (normalizeKey key2) (VMap state') = Some (scalar_value x2).
Proof.
  intros Hkeys. pose proof (SetScalar_SetScalar ctx h _ _ x1 x2 Hkeys) as Heq.
  split; [done|]. intros c state Hatt Hclear%clear_path_blocked.
  rewrite Heq, (SetScalar_attached _ _ _ _ _ _ Hatt).
  destruct (set_is_Some (normalizeKey key2) state (scalar_value x2))
    as [state' Hs]; [apply normalizeKey_nonempty | done |].
  rewrite Hs. exists state'. split; [done|]. by eapply set_at_path.
Qed.

(** C5. A call depends on its key through [ToLower] only, so keys that
    differ in case address one path: [Set("Foo.Bar", 1)] then
    [Set("foo.bar", 2)] is [Set("foo.bar", 2)] alone; on a clear path it
    leaves 2 at foo.bar and writes no key [Foo] or [Bar]; on a fresh
    carrier the store serialises to one nested object. *)
Theorem keys_case_insensitive ctx h :
  (∀ key1 key2, ToLower key1 = ToLower key2 →
     (∀ x, SetScalar ctx key1 x h = SetScalar ctx key2 x h) ∧
     (∀ d, AddInt ctx key1 d h = AddInt ctx key2 d h) ∧
     (∀ d, AddFloat64 ctx key1 d h = AddFloat64 ctx key2 d h)) ∧
  (SetInt ctx "Foo.Bar" 1 ;; SetInt ctx "foo.bar" 2) h
  = SetInt ctx "foo.bar" 2 h ∧
  (∀ c state,
     attached ctx h c state → clear_path ["foo"; "bar"] state →
     ∃ state',
       (SetInt ctx "Foo.Bar" 1 ;; SetInt ctx "foo.bar" 2) h
       = Returns tt (store c state' h) ∧
       at_path ["foo"; "bar"] (VMap state') = Some (VInt 2) ∧
       at_path ["Foo"] (VMap state') = at_path ["Foo"] (VMap state) ∧
       at_path ["foo"; "Bar"] (VMap state')
       = at_path ["foo"; "Bar"] (VMap state)) ∧
  (ctx0 ← Init Background;
   SetInt ctx0 "Foo.Bar" 1;; SetInt ctx0 "foo.bar" 2;; MarshalJSON ctx0) ∅
  = Returns (js "{'foo':{'bar':2}}")
            (store 0 [("foo", VMap [("bar", VInt 2)])] ∅).
Proof.
  assert (normalizeKey "Foo.Bar" = normalizeKey "foo.bar") as Hnorm by done.
  pose proof (SetScalar_SetScalar ctx h "Foo.Bar" "foo.bar" (SInt 1) (SInt 2)
                Hnorm) as Heq.
  split_and!.
  - intros key1 key2 Hlow. split_and!.
    + intros []; unfold SetScalar, SetString, SetInt, SetFloat64,
        setString, setInt, setFloat64, normalizeKey; by rewrite Hlow.
    + intros d. unfold AddInt, addInt, normalizeKey. by rewrite Hlow.
    + intros d. unfold AddFloat64, addFloat64, normalizeKey. by rewrite Hlow.
  - apply Heq.
  - intros c state Hatt Hc%clear_path_blocked.
    destruct (set_is_Some ["foo"; "bar"] state (VInt 2)) as [state' Hs];
      [done | done |].
    exists state'. split_and!.
    + transitivity (SetScalar ctx "foo.bar" (SInt 2) h); [exact Heq|].
      rewrite (SetScalar_attached _ _ _ _ _ _ Hatt).
      change (normalizeKey "foo.bar") with ["foo"; "bar"].
      change (scalar_value (SInt 2)) with (VInt 2). by rewrite Hs.
    + by eapply set_at_path.
    + eapply set_frame; [done | |]; by intros [? [=]].
    + eapply set_frame; [done | |]; by intros [? [=]].
  - vm_compute. done.
Qed.

(** ** [Init] *)

Lemma Init_attached ctx h c state :
  attached ctx h c state → Init ctx h = Returns ctx h.
Proof. intros [Hctx _]. unfold Init. by rewrite Hctx. Qed.

Lemma Init_absent ctx h :
  ctx_Value ctx contextKey = Nil →
  ∃ c, h !! c = None ∧
       Init ctx h = Returns (WithValue ctx contextKey (Canonical c))
                            (store c [] h) ∧
       attached (WithValue ctx contextKey (Canonical c)) (store c [] h) c [].
Proof.
  intros Hctx. exists (fresh (dom h)). split_and!.
  - apply not_elem_of_dom, is_fresh.
  - unfold Init. by rewrite Hctx.
  - split; [done | apply lookup_insert_eq].
Qed.

(** A carrier derived under another key holds the same store. *)
Lemma attached_WithValue ctx h c state key val :
  key ≠ contextKey → attached ctx h c state →
  attached (WithValue ctx key val) h c state.
Proof. intros Hk [Hctx Hc]. split; [simpl; by rewrite decide_False | done]. Qed.

(** X1. [Init] on a carrier that holds a store returns the carrier and
    the heap as they are, and so does [Init] on any carrier derived from it
    under another key, which still holds the same store. *)
Theorem Init_idempotent ctx h c state :
  attached ctx h c state →
  Init ctx h = Returns ctx h ∧
  (ctx' ← Init ctx; Init ctx') h = Returns ctx h ∧
  ∀ key val, key ≠ contextKey →
    Init (WithValue ctx key val) h = Returns (WithValue ctx key val) h ∧
    attached (WithValue ctx key val) h c state.
Proof.
  intros Hatt. pose proof (Init_attached _ _ _ _ Hatt) as HI. split_and!.
  - done.
  - unfold mbind, M_bind, bind. by rewrite HI.
  - intros key val Hkey.
    pose proof (attached_WithValue _ _ _ _ _ val Hkey Hatt) as Hatt'.
    split; [by eapply Init_attached | done].
Qed.

(** X2. [Init] on a carrier that holds nothing under [contextKey] returns
    a carrier holding a new store, whose map is empty: [MarshalJSON] gives
    the empty object. *)
Theorem Init_attaches ctx h :
  ctx_Value ctx contextKey = Nil →
  ∃ c, h !! c = None ∧
       Init ctx h = Returns (WithValue ctx contextKey (Canonical c))
                            (store c [] h) ∧
       (ctx' ← Init ctx; MarshalJSON ctx') h = Returns "{}" (store c [] h).
Proof.
  intros Hnil. destruct (Init_absent ctx h Hnil) as (c & Hc & HI & Hatt).
  exists c. split_and!; [done | done |].
  unfold mbind, M_bind, bind. rewrite HI.
  by rewrite (MarshalJSON_attached _ _ _ _ Hatt).
Qed.

(** X3. Two [AddInt] calls on a key with a clear path and nothing at the
    leaf both return and leave the sum of the two deltas (Go's [int]
    addition) at the leaf. *)
Theorem AddInt_accumulates ctx h c state key delta1 delta2 :
  attached ctx h c state →
  clear_path (normalizeKey key) state →
  at_path (normalizeKey key) (VMap state) = None →
  ∃ state',
    (AddInt ctx key delta1 ;; AddInt ctx key delta2) h
    = Returns tt (store c state' h) ∧
    at_path (normalizeKey key) (VMap state')
    = Some (VInt (int_add delta1 delta2)).
Proof.
  intros Hatt Hclear%clear_path_blocked Habsent.
  pose proof (normalizeKey_nonempty key) as Hne.
  destruct (add_at_leaf _ _ delta1 Hne Hclear) as (state1 & Hadd1 & Hleaf1).
  rewrite Habsent in Hleaf1.
  assert (blocked (normalizeKey key) state1 = false) as Hclear1.
  { rewrite add_walk in Hadd1. by eapply walk_not_blocked. }
  destruct (add_at_leaf _ _ delta2 Hne Hclear1) as (state' & Hadd2 & Hleaf2).
  rewrite Hleaf1 in Hleaf2.
  exists state'. split; [|done].
  unfold mbind, M_bind, bind.
  rewrite (AddInt_attached _ _ _ _ _ _ Hatt), Hadd1.
  rewrite (AddInt_attached _ _ _ _ _ _ (attached_store _ _ _ _ state1 Hatt)).
  by rewrite Hadd2, store_store.
Qed.

(** C2. A setter call on a clear path returns; afterwards the path leads
    to the value, every segment before the last holds a map, the map above
    each segment has the keys it had, with the segment added at the end
    only when it was not among them, and every path off the one set reads
    as before.  On a fresh carrier [Set("a.b.c", x)] then [Set("a.b.d", y)]
    serialises to one object under a, one under b in it, and c and d in
    that, in this order. *)
Theorem dotted_key_nests ctx h c state key x :
  attached ctx h c state →
  clear_path (normalizeKey key) state →
  (∃ state',
     SetScalar ctx key x h = Returns tt (store c state' h) ∧
     at_path (normalizeKey key) (VMap state') = Some (scalar_value x) ∧
     (∀ p k r, normalizeKey key = p ++ k :: r →
        (∃ m, at_path p (VMap state') = Some (VMap m)) ∧
        (∃ v, at_path (p ++ [k]) (VMap state') = Some v ∧
              if decide (r = []) then v = scalar_value x
              else is_map v = true) ∧
        orderedmap.keys (map_at p state') =
        if decide (k ∈ orderedmap.keys (map_at p state))
        then orderedmap.keys (map_at p state)
        else orderedmap.keys (map_at p state) ++ [k]) ∧
     (∀ p, ¬ p `prefix_of` normalizeKey key → ¬ normalizeKey key `prefix_of` p →
           at_path p (VMap state') = at_path p (VMap state))) ∧
  (∀ x y sx sy,
     marshal (scalar_value x) = Some sx → marshal (scalar_value y) = Some sy →
     (ctx0 ← Init Background;
      SetScalar ctx0 "a.b.c" x;; SetScalar ctx0 "a.b.d" y;; MarshalJSON ctx0) ∅
     = Returns (js "{'a':{'b':{'c':" +:+ sx +:+ js ",'d':" +:+ sy +:+ "}}}")
         (store 0 [("a", VMap [("b", VMap [("c", scalar_value x);
                                           ("d", scalar_value y)])])] ∅)).
Proof.
  intros Hatt Hclear%clear_path_blocked. split.
  - destruct (set_is_Some (normalizeKey key) state (scalar_value x))
      as [state' Hs]; [apply normalizeKey_nonempty | done |].
    exists state'. split_and!.
    + by rewrite (SetScalar_attached _ _ _ _ _ _ Hatt), Hs.
    + by eapply set_at_path.
    + intros p k r Hsplit. rewrite Hsplit in Hs.
      destruct (set_map_at _ _ _ _ _ _ Hs) as (v & Hp & Hv).
      split_and!; [by eauto | |].
      * exists v. split; [|done].
        rewrite at_path_app, Hp. simpl.
        by rewrite orderedmap_facts.Get_Set_eq.
      * unfold map_at at 1. rewrite Hp, orderedmap_facts.keys_Set.
        destruct (orderedmap.Get k (map_at p state)) as [w|] eqn:HG.
        -- rewrite decide_True; [done|].
           apply orderedmap_facts.Get_Some_keys. by rewrite HG.
        -- rewrite decide_False; [done|].
           by apply orderedmap_facts.Get_None_keys.
    + intros p Hp1 Hp2. by eapply set_frame.
  - intros x1 y sx sy Hx Hy.
    destruct (Init_absent Background ∅ eq_refl) as (c0 & _ & HI & Hatt0).
    assert (c0 = 0) as -> by (vm_compute in HI; congruence).
    unfold mbind at 1, M_bind at 1, bind at 1. rewrite HI.
    unfold mbind at 1, M_bind at 1, bind at 1.
    rewrite (SetScalar_attached _ _ _ _ _ _ Hatt0).
    change (set (normalizeKey "a.b.c") [] (scalar_value x1)) with
      (Some [("a", VMap [("b", VMap [("c", scalar_value x1)])])]).
    cbv beta iota.
    unfold mbind at 1, M_bind at 1, bind at 1.
    rewrite (SetScalar_attached _ _ _ _ _ _ (attached_store _ _ _ _ _ Hatt0)).
    change (set (normalizeKey "a.b.d") _ (scalar_value y)) with
      (Some [("a", VMap [("b", VMap [("c", scalar_value x1);
                                      ("d", scalar_value y)])])]).
    cbv beta iota.
    rewrite (MarshalJSON_attached _ _ _ _
               (attached_store _ _ _ _ _ (attached_store _ _ _ _ _ Hatt0))).
    rewrite !store_store. f_equal.
    unfold canonical_string, values.
    cbn [marshal map fst snd]. rewrite Hx, Hy. shallow. simpl.
    rewrite !append_assoc. reflexivity.
Qed.

(** ** A sequence of setter calls on a fresh carrier *)

Lemma store_same c state h :
  h !! c = Some {| values := state |} → store c state h = h.
Proof. intros Hc. unfold store. by apply insert_id. Qed.

Lemma SetAll_attached ctx h c state ops :
  attached ctx h c state →
  SetAll ctx ops h =
  match set_all (path_value <$> ops) state with
  | Some state' => Returns tt (store c state' h)
  | None => Panics
  end.
Proof.
  revert h state. induction ops as [|[key x] ops IH]; intros h state Hatt.
  { simpl. destruct Hatt as [_ Hc]. by rewrite store_same. }
  cbn [SetAll]. unfold mbind at 1, M_bind at 1, bind at 1.
  rewrite (SetScalar_attached _ _ _ _ _ _ Hatt), fmap_cons.
  change (path_value (key, x)) with (normalizeKey key, scalar_value x).
  cbn [set_all].
  destruct (set (normalizeKey key) state (scalar_value x)) as [state1|];
    [|done].
  cbn [mbind option_bind].
  rewrite (IH _ _ (attached_store _ _ _ _ state1 Hatt)).
  destruct (set_all (path_value <$> ops) state1); [|done].
  by rewrite store_store.
Qed.

Lemma paths_of_path_value ops : (path_value <$> ops).*1 = paths_of ops.
Proof. unfold paths_of. rewrite <- list_fmap_compose. done. Qed.

(** C1, amended.  On a carrier that [Init] gives a store to: when the
    normalised keys of the calls are pairwise distinct, none of them is a
    proper prefix of another, none has more than [maxNestingDepth]
    segments, and no value is a NaN or an infinite float, the calls all
    return and [MarshalJSON] returns the text of the store, which holds
    exactly the values set, each at its normalised key, with the keys of
    every level in the order of their first insertion. *)
Theorem SetAll_then_MarshalJSON ctx0 h0 ops :
  ctx_Value ctx0 contextKey = Nil →
  NoDup (paths_of ops) →
  prefix_free (paths_of ops) →
  Forall (λ p, (Z.of_nat (length p) ≤ maxNestingDepth)%Z) (paths_of ops) →
  Forall (λ op, json_encodable op.2 = true) ops →
  serialises_as_set ctx0 h0 ops.
Proof.
  intros Hnil Hnd Hpf Hlen Henc.
  destruct (Init_absent ctx0 h0 Hnil) as (c & Hc & HI & Hatt0).
  destruct (reflects_all [] (path_value <$> ops) [] reflects_nil)
    as (state & Hall & Hin & Hout & Hkeys).
  { apply Forall_fmap, Forall_true. intros [key x]. simpl.
    split; [apply normalizeKey_nonempty | by destruct x]. }
  { simpl. by rewrite paths_of_path_value. }
  { simpl. by rewrite paths_of_path_value. }
  simpl in Hin, Hout, Hkeys.
  destruct (set_all_marshal (path_value <$> ops) [] state) as [s Hs];
    [ | apply marshal_empty | done | ].
  { unfold paths_of in Hlen. rewrite Forall_fmap in Hlen.
    apply Forall_fmap, Forall_forall. intros [key x] Hop.
    rewrite Forall_forall in Henc, Hlen. cbn [path_value compose fst snd].
    split_and!; [| apply nesting_scalar | exact (Hlen _ Hop)].
    apply json_encodable_marshal, (Henc _ Hop). }
  exists c, state, s. split_and!.
  - done.
  - unfold mbind at 1, M_bind at 1, bind at 1. rewrite HI.
    unfold mbind at 1, M_bind at 1, bind at 1.
    rewrite (SetAll_attached _ _ _ _ _ Hatt0), Hall.
    rewrite (MarshalJSON_attached _ _ _ _ (attached_store _ _ _ _ _ Hatt0)).
    rewrite store_store. unfold canonical_string, values. by rewrite Hs.
  - done.
  - intros key x Hop. apply Hin.
    apply list_elem_of_fmap. by exists (key, x).
  - intros p v Hv Hsc.
    apply Hout, list_elem_of_fmap in Hv as ([key x] & [= -> ->] & Hop); [|done].
    by exists key, x.
  - intros p. by rewrite Hkeys, paths_of_path_value.
Qed.

End api_facts.

(** * Beyond single calls *)

(** ** Every call is a set of a scalar, or changes nothing *)

Section tame_facts.
Import orderedmap orderedmap_facts.
Implicit Types (parts p q r : list string) (state m : OrderedMap) (v : Value).

(** A walk depends on its last step only through what that step does to
    the map it is applied to. *)
Lemma walk_leaf_ext leaf1 leaf2 q key state :
  leaf1 key (map_at q state) = leaf2 key (map_at q state) →
  walk leaf1 (q ++ [key]) state = walk leaf2 (q ++ [key]) state.
Proof.
  revert state. induction q as [|k q IH]; intros state Hleaf.
  { simpl. by rewrite map_at_nil in Hleaf; rewrite Hleaf. }
  assert (∃ k' r, q ++ [key] = k' :: r) as (k' & r & Hq).
  { destruct q; simpl; eauto. }
  rewrite <- !app_comm_cons, Hq, !walk_cons, <- Hq.
  rewrite map_at_cons in Hleaf.
  destruct (Get k state) as [[| | |m]|]; try done.
  - by rewrite (IH m).
  - rewrite (IH New); [done|]. by rewrite map_at_empty.
Qed.

Lemma tame_walk leaf parts state state' :
  tame leaf → walk leaf parts state = Some state' →
  state' = state ∨
  ∃ v, is_scalar v = true ∧ set parts state v = Some state'.
Proof.
  intros Htame Hw.
  assert (parts ≠ []) as Hne by (by intros ->).
  destruct (exists_last Hne) as (q & key & ->).
  destruct (Htame key (map_at q state)) as [[Hid [x Hx]]|(v & Hv & Hset)].
  - left. eapply walk_unchanged; [done | by eapply map_at_Get_Some | done].
  - right. exists v. split; [done|].
    rewrite set_walk, <- Hw. symmetry. by apply walk_leaf_ext.
Qed.

Lemma tame_call_leaf cl : tame (call_leaf cl).
Proof.
  intros key m. destruct cl as [k x|k d|k d]; simpl.
  - right. exists (scalar_value x). by destruct x.
  - unfold add_leaf. destruct (Get key m) as [[| e | |]|] eqn:HG;
      try (left; by eauto).
    + right. by exists (VInt (int_add e d)).
    + right. by exists (VInt d).
  - unfold addFloat_leaf. destruct (Get key m) as [[| | e |]|] eqn:HG;
      try (left; by eauto).
    + right. by exists (VFloat (PrimFloat.add e d)).
    + right. by exists (VFloat d).
Qed.

(** ** What a set of a scalar keeps *)

Lemma set_map_at_below parts p state state' v :
  set parts state v = Some state' → is_scalar v = true →
  parts `prefix_of` p → map_at p state' = [].
Proof.
  intros Hset Hv Hpre. unfold map_at.
  destruct (decide (parts = p)) as [<-|Hne].
  - rewrite (set_at_path _ _ _ _ Hset). by destruct v.
  - by rewrite (set_below _ _ _ _ _ Hset Hv Hpre Hne).
Qed.

(** Where two paths stand to each other. *)
Lemma path_trichotomy p parts :
  (∃ k r, parts = p ++ k :: r) ∨ parts `prefix_of` p ∨
  (¬ p `prefix_of` parts ∧ ¬ parts `prefix_of` p).
Proof.
  destruct (decide (parts `prefix_of` p)) as [?|Hpp]; [by eauto|].
  destruct (decide (p `prefix_of` parts)) as [Hpre|?]; [|by eauto].
  left. destruct (next_segment_proper p parts Hpre) as [k Hk].
  { intros ->. by apply Hpp. }
  apply next_segment_Some in Hk as [r ->]. eauto.
Qed.

Lemma set_keeps_blocked parts p state state' v :
  set parts state v = Some state' → is_scalar v = true →
  blocked p state = true → blocked p state' = true.
Proof.
  intros Hset Hv (q & w & Hq & Hne & Hw & Hs)%blocked_spec.
  apply blocked_spec.
  destruct (path_trichotomy q parts) as [(k & r & ->)|[Hpre|[Hn1 Hn2]]].
  - assert (blocked (q ++ k :: r) state = true) as Hb.
    { apply blocked_spec. exists q, w. split_and!; [by eexists | | done | done].
      intros Heq. apply (f_equal length) in Heq.
      rewrite length_app in Heq. simpl in Heq. lia. }
    rewrite set_None in Hset; [done | by destruct q | done].
  - exists parts, v. split_and!.
    + by etrans.
    + intros ->. apply Hne. by apply (anti_symm prefix).
    + by eapply set_at_path.
    + done.
  - exists q, w. split_and!; [done | done | | done].
    by rewrite (set_frame _ _ _ _ _ Hset).
Qed.

Lemma set_keys_unique parts state state' v :
  set parts state v = Some state' → is_scalar v = true →
  keys_unique state → keys_unique state'.
Proof.
  intros Hset Hv Hu p.
  destruct (path_trichotomy p parts) as [(k & r & ->)|[Hpre|[Hn1 Hn2]]].
  - destruct (set_map_at _ _ _ _ _ _ Hset) as (x & Hx & _).
    unfold map_at at 1. rewrite Hx. apply NoDup_keys_Set, Hu.
  - rewrite (set_map_at_below _ _ _ _ _ Hset Hv Hpre). constructor.
  - unfold map_at. rewrite (set_frame _ _ _ _ _ Hset) by done. apply Hu.
Qed.

Lemma keys_unique_empty : keys_unique [].
Proof. intros p. rewrite map_at_empty. constructor. Qed.

(** The keys of a map stay where they are; a map is gone only when a
    scalar is written at or above it. *)
Lemma set_keys_grow parts p state state' v :
  set parts state v = Some state' → is_scalar v = true →
  map_at p state' = [] ∨ keys (map_at p state) `prefix_of` keys (map_at p state').
Proof.
  intros Hset Hv.
  destruct (path_trichotomy p parts) as [(k & r & ->)|[Hpre|[Hn1 Hn2]]].
  - right. destruct (set_map_at _ _ _ _ _ _ Hset) as (x & Hx & _).
    unfold map_at at 2. rewrite Hx, keys_Set.
    destruct (Get k (map_at p state)); [done | by apply prefix_app_r].
  - left. by eapply set_map_at_below.
  - right. unfold map_at. by rewrite (set_frame _ _ _ _ _ Hset).
Qed.

Lemma set_root_keys_grow parts state state' v :
  set parts state v = Some state' → keys state `prefix_of` keys state'.
Proof.
  intros Hset.
  assert (parts ≠ []) as Hne by (by intros ->).
  destruct parts as [|k r]; [done|].
  destruct (set_map_at [] k r _ _ _ Hset) as (x & Hx & _).
  injection Hx as ->. rewrite map_at_nil, keys_Set.
  destruct (Get k state); [done | by apply prefix_app_r].
Qed.

Lemma set_all_keys_unique sets state state' :
  Forall (λ pv, is_scalar pv.2 = true) sets → keys_unique state →
  set_all sets state = Some state' → keys_unique state'.
Proof.
  revert state. induction sets as [|[parts v] sets IH]; intros state Hall Hu.
  { by intros [= <-]. }
  apply Forall_cons in Hall as [Hv Hall]. cbn [snd] in Hv. cbn [set_all].
  destruct (set parts state v) as [st|] eqn:Hset; [|done].
  cbn [mbind option_bind]. apply IH; [done|]. by eapply set_keys_unique.
Qed.

End tame_facts.

(** ** Sequences of calls on a carrier *)

Section call_facts.
Context `{GoLibrary}.
Import orderedmap orderedmap_facts.
Implicit Types (ctx : Context) (h : Heap) (c : ptr) (state : OrderedMap).
Implicit Types (cl : call) (calls : list call).

Lemma do_call_attached ctx h c state cl :
  attached ctx h c state →
  do_call ctx cl h =
  match walk (call_leaf cl) (normalizeKey (call_key cl)) state with
  | Some state' => Returns tt (store c state' h)
  | None => Panics
  end.
Proof.
  intros Hatt. destruct cl as [key x|key d|key d]; simpl.
  - by rewrite (SetScalar_attached _ _ _ _ _ _ Hatt), set_walk.
  - by rewrite (AddInt_attached _ _ _ _ _ _ Hatt), add_walk.
  - by rewrite (AddFloat64_attached _ _ _ _ _ _ Hatt), addFloat_walk.
Qed.

(** A call panics, or returns with the store as it was, or with the store
    a set of some scalar on its key gives. *)
Lemma do_call_effect ctx h c state cl :
  attached ctx h c state →
  do_call ctx cl h = Panics ∨
  ∃ state',
    do_call ctx cl h = Returns tt (store c state' h) ∧
    (state' = state ∨
     ∃ v, is_scalar v = true ∧
          set (normalizeKey (call_key cl)) state v = Some state').
Proof.
  intros Hatt. rewrite (do_call_attached _ _ _ _ _ Hatt).
  destruct (walk _ _ state) as [state'|] eqn:Hw; [|by left].
  right. exists state'. split; [done|].
  eapply tame_walk; [apply tame_call_leaf | done].
Qed.

(** What every set of a scalar on one of the paths [Q] keeps, a sequence
    of calls on such paths keeps. *)
Lemma do_calls_keep (Q : list string → Prop) (P : OrderedMap → Prop)
    ctx h c state calls :
  (∀ parts st v st', Q parts → P st → is_scalar v = true →
                     set parts st v = Some st' → P st') →
  Forall (λ cl, Q (normalizeKey (call_key cl))) calls →
  attached ctx h c state → P state →
  do_calls ctx calls h = Panics ∨
  ∃ state', do_calls ctx calls h = Returns tt (store c state' h) ∧ P state'.
Proof.
  intros Hkeep. revert h state.
  induction calls as [|cl calls IH]; intros h state Hall Hatt HP.
  { right. exists state. split; [|done]. simpl.
    destruct Hatt as [_ Hc]. by rewrite store_same. }
  apply Forall_cons in Hall as [HQ Hall].
  cbn [do_calls]. unfold mbind, M_bind, bind.
  destruct (do_call_effect _ _ _ _ cl Hatt) as [->|(state1 & -> & Hst)];
    [by left|].
  assert (P state1) as HP1.
  { destruct Hst as [->|(v & Hv & Hset)]; [done | by eapply Hkeep]. }
  destruct (IH _ _ Hall (attached_store _ _ _ _ state1 Hatt) HP1)
    as [->|(state' & -> & HP')]; [by left|].
  right. exists state'. by rewrite store_store.
Qed.

(** X4. A scalar on the way of a key blocks the key for good: whatever
    setter and adder calls come first, a later call on that key panics (if
    none before it did).  No call replaces a scalar by a map. *)
Theorem scalar_blocks_forever ctx h c state calls cl :
  attached ctx h c state →
  ¬ clear_path (normalizeKey (call_key cl)) state →
  (do_calls ctx calls ;; do_call ctx cl) h = Panics.
Proof.
  intros Hatt Hblocked. rewrite clear_path_blocked in Hblocked.
  apply not_false_is_true in Hblocked.
  unfold mbind, M_bind, bind.
  destruct (do_calls_keep (λ _, True)
              (λ st, blocked (normalizeKey (call_key cl)) st = true)
              ctx h c state calls) as [->|(state' & -> & Hb)];
    [ | by apply Forall_true | done | done | done | ].
  { intros parts st v st' _ Hst Hv Hset. by eapply set_keeps_blocked. }
  rewrite (do_call_attached _ _ _ _ _ (attached_store _ _ _ _ state' Hatt)).
  assert (walk (call_leaf cl) (normalizeKey (call_key cl)) state' = None)
    as ->; [|done].
  apply walk_None; [apply normalizeKey_nonempty | done].
Qed.

(** X5. On a carrier that [Init] gives a store to, any sequence of setter
    and adder calls either panics or leaves a store in which the keys of
    every map, at every depth, are pairwise distinct. *)
Theorem keys_stay_unique ctx0 h0 calls :
  ctx_Value ctx0 contextKey = Nil →
  (ctx ← Init ctx0; do_calls ctx calls) h0 = Panics ∨
  ∃ c state,
    (ctx ← Init ctx0; do_calls ctx calls) h0
    = Returns tt (store c state h0) ∧
    keys_unique state.
Proof.
  intros Hnil. destruct (Init_absent ctx0 h0 Hnil) as (c & Hc & HI & Hatt).
  unfold mbind, M_bind, bind. rewrite HI.
  destruct (do_calls_keep (λ _, True) keys_unique _ _ _ _ calls
              ltac:(intros; by eapply set_keys_unique)
              ltac:(by apply Forall_true) Hatt keys_unique_empty)
    as [->|(state & -> & Hu)]; [by left|].
  right. exists c, state. by rewrite store_store.
Qed.

(** X6. A call never moves a key.  After a call that returns, the map at
    any path either is gone (a scalar was written at or above it) or has
    the keys it had, in the same order, with at most new ones after them;
    the top-level keys stay in place through any sequence of calls. *)
Theorem keys_keep_their_place ctx h c state :
  attached ctx h c state →
  (∀ cl,
     do_call ctx cl h = Panics ∨
     ∃ state',
       do_call ctx cl h = Returns tt (store c state' h) ∧
       ∀ p, map_at p state' = [] ∨
            keys (map_at p state) `prefix_of` keys (map_at p state')) ∧
  (∀ calls,
     do_calls ctx calls h = Panics ∨
     ∃ state',
       do_calls ctx calls h = Returns tt (store c state' h) ∧
       keys state `prefix_of` keys state').
Proof.
  intros Hatt. split.
  - intros cl.
    destruct (do_call_effect _ _ _ _ cl Hatt) as [->|(state' & -> & Hst)];
      [by left|].
    right. exists state'. split; [done|]. intros p.
    destruct Hst as [->|(v & Hv & Hset)]; [by right | by eapply set_keys_grow].
  - intros calls.
    apply (do_calls_keep (λ _, True) (λ st, keys state `prefix_of` keys st)
             ctx h c state calls);
      [ | by apply Forall_true | done | done].
    intros parts st v st' _ Hst _ Hset. etrans; [done|].
    by eapply set_root_keys_grow.
Qed.

(** X7. Calls leave alone what is off their paths: a path that is no
    prefix of the path of any call of a sequence, and has none of them as
    a prefix, leads to the same value before and after. *)
Theorem calls_frame ctx h c state calls p :
  attached ctx h c state →
  Forall (λ cl, ¬ p `prefix_of` normalizeKey (call_key cl) ∧
                ¬ normalizeKey (call_key cl) `prefix_of` p) calls →
  do_calls ctx calls h = Panics ∨
  ∃ state',
    do_calls ctx calls h = Returns tt (store c state' h) ∧
    at_path p (VMap state') = at_path p (VMap state).
Proof.
  intros Hatt Hoff.
  apply (do_calls_keep
           (λ parts, ¬ p `prefix_of` parts ∧ ¬ parts `prefix_of` p)
           (λ st, at_path p (VMap st) = at_path p (VMap state))
           ctx h c state calls);
    [ | done | done | done].
  intros parts st v st' [Hn1 Hn2] Hst _ Hset.
  by rewrite (set_frame _ _ _ _ _ Hset).
Qed.

End call_facts.

(** ** Calls on one key, one after the other *)

Section compose_facts.
Context `{GoLibrary}.
Import orderedmap orderedmap_facts.
Implicit Types (ctx : Context) (h : Heap) (c : ptr) (state : OrderedMap).

(** Two walks along one path are the walk with the two last steps in a
    row. *)
Lemma walk_compose leaf1 leaf2 leaf3 parts state state1 :
  (∀ key m, leaf2 key (leaf1 key m) = leaf3 key m) →
  walk leaf1 parts state = Some state1 →
  walk leaf2 parts state1 = walk leaf3 parts state.
Proof.
  intros Hl. revert state state1.
  induction parts as [|k parts IH]; intros state state1 Hw; [done|].
  destruct parts as [|k' r].
  { simplify_eq/=. by rewrite Hl. }
  rewrite walk_cons in Hw. rewrite !walk_cons.
  destruct (Get k state) as [[| | |m]|] eqn:HG; try done.
  - destruct (walk leaf1 (k' :: r) m) as [val'|] eqn:Hw'; [|done].
    simpl in Hw. injection Hw as <-. rewrite Get_Set_eq, (IH _ _ Hw').
    destruct (walk leaf3 (k' :: r) m); simpl; [|done]. by rewrite Set_Set.
  - destruct (walk leaf1 (k' :: r) New) as [val'|] eqn:Hw'; [|done].
    simpl in Hw. injection Hw as <-. rewrite Get_Set_eq, (IH _ _ Hw').
    destruct (walk leaf3 (k' :: r) New); simpl; [|done]. by rewrite Set_Set.
Qed.

Lemma do_call_compose ctx h cl1 cl2 cl3 :
  normalizeKey (call_key cl1) = normalizeKey (call_key cl3) →
  normalizeKey (call_key cl2) = normalizeKey (call_key cl3) →
  (∀ key m, call_leaf cl2 key (call_leaf cl1 key m) = call_leaf cl3 key m) →
  (do_call ctx cl1 ;; do_call ctx cl2) h = do_call ctx cl3 h.
Proof.
  intros Hk1 Hk2 Hl. unfold mbind, M_bind, bind.
  destruct (ctx_Value ctx contextKey) as [|c|t] eqn:Hctx.
  1,3: by destruct cl1 as [? []| |], cl2 as [? []| |], cl3 as [? []| |];
    unfold do_call, SetScalar, SetString, SetInt, SetFloat64, AddInt,
      AddFloat64; rewrite Hctx.
  destruct (h !! c) as [[state]|] eqn:Hc.
  2: { by destruct cl1 as [? []| |], cl3 as [? []| |];
         unfold do_call, SetScalar, SetString, SetInt, SetFloat64, AddInt,
           AddFloat64; rewrite Hctx; simpl;
         unfold setString, setInt, setFloat64, addInt, addFloat64,
           update_values; rewrite Hc. }
  assert (attached ctx h c state) as Hatt by done.
  rewrite !(do_call_attached _ _ _ _ _ Hatt), Hk1.
  destruct (walk (call_leaf cl1) _ state) as [state1|] eqn:Hw1.
  - rewrite (do_call_attached _ _ _ _ _ (attached_store _ _ _ _ state1 Hatt)).
    rewrite Hk2, (walk_compose _ _ _ _ _ _ Hl Hw1).
    destruct (walk (call_leaf cl3) _ state); [|done]. by rewrite store_store.
  - apply walk_None in Hw1; [|apply normalizeKey_nonempty].
    apply (walk_None (call_leaf cl3)) in Hw1; [|apply normalizeKey_nonempty].
    by rewrite Hw1.
Qed.

(** Go's [int] addition is associative. *)
Lemma int_add_assoc a b d : int_add (int_add a b) d = int_add a (int_add b d).
Proof.
  unfold int_add, int_wrap.
  replace ((a + b + 2 ^ 63) mod 2 ^ 64 - 2 ^ 63 + d + 2 ^ 63)%Z
    with ((a + b + 2 ^ 63) mod 2 ^ 64 + d)%Z by lia.
  replace (a + ((b + d + 2 ^ 63) mod 2 ^ 64 - 2 ^ 63) + 2 ^ 63)%Z
    with (a + (b + d + 2 ^ 63) mod 2 ^ 64)%Z by lia.
  rewrite Zplus_mod_idemp_l, Zplus_mod_idemp_r. f_equal. f_equal. lia.
Qed.

(** X8. Two [AddInt] calls on keys that normalise to one path are one
    [AddInt] of the sum of the deltas (Go's [int] addition), on every
    carrier and heap, whatever the key holds. *)
Theorem AddInt_AddInt ctx h key1 key2 delta1 delta2 :
  normalizeKey key1 = normalizeKey key2 →
  (AddInt ctx key1 delta1 ;; AddInt ctx key2 delta2) h
  = AddInt ctx key2 (int_add delta1 delta2) h.
Proof.
  intros Hkeys.
  apply (do_call_compose ctx h (CallAddInt key1 delta1)
           (CallAddInt key2 delta2) (CallAddInt key2 (int_add delta1 delta2)));
    [done | done |].
  intros key m. simpl. unfold add_leaf.
  destruct (Get key m) as [[| e | |]|] eqn:HG.
  - by rewrite HG.
  - by rewrite Get_Set_eq, Set_Set, int_add_assoc.
  - by rewrite HG.
  - by rewrite HG.
  - by rewrite Get_Set_eq, Set_Set.
Qed.

(** X9. A setter call followed by an adder call on the same path is one
    setter call: of the sum when the value set is of the adder's kind, of
    the value set (the delta is dropped) when it is of another kind. *)
Theorem Set_then_Add ctx h key1 key2 x :
  normalizeKey key1 = normalizeKey key2 →
  (∀ delta,
     (SetScalar ctx key1 x ;; AddInt ctx key2 delta) h
     = SetScalar ctx key2 (plus_int x delta) h) ∧
  (∀ delta,
     (SetScalar ctx key1 x ;; AddFloat64 ctx key2 delta) h
     = SetScalar ctx key2 (plus_float x delta) h).
Proof.
  intros Hkeys. split; intros delta.
  - apply (do_call_compose ctx h (CallSet key1 x) (CallAddInt key2 delta)
             (CallSet key2 (plus_int x delta))); [done | done |].
    intros key m. simpl. unfold add_leaf. rewrite Get_Set_eq.
    destruct x; simpl; [done | by rewrite Set_Set | done].
  - apply (do_call_compose ctx h (CallSet key1 x) (CallAddFloat64 key2 delta)
             (CallSet key2 (plus_float x delta))); [done | done |].
    intros key m. simpl. unfold addFloat_leaf. rewrite Get_Set_eq.
    destruct x; simpl; [done | done | by rewrite Set_Set].
Qed.

End compose_facts.

(** ** Keys and paths *)

Section key_facts.
Context `{GoLibrary}.

Lemma Split_dot_cons c s :
  Split_dot (String c s) =
  if decide (c = dot) then EmptyString :: Split_dot s
  else match Split_dot s with
       | [] => [String c EmptyString]
       | seg :: segs => String c seg :: segs
       end.
Proof. done. Qed.

(** Joining the segments with dots gives the string back. *)
Lemma Join_Split s : Join_dot (Split_dot s) = s.
Proof.
  induction s as [|c s IH]; [done|]. rewrite Split_dot_cons.
  pose proof (Split_dot_nonempty s) as Hne.
  destruct (decide (c = dot)) as [->|Hc].
  - destruct (Split_dot s) as [|seg segs] eqn:Hs; [done|].
    change (Join_dot (EmptyString :: seg :: segs))
      with (String dot (Join_dot (seg :: segs))).
    by rewrite IH.
  - destruct (Split_dot s) as [|seg segs] eqn:Hs; [done|].
    destruct segs as [|seg' segs].
    + simpl in *. by rewrite IH.
    + change (Join_dot (String c seg :: seg' :: segs))
        with (String c (Join_dot (seg :: seg' :: segs))).
      by rewrite IH.
Qed.

Lemma Split_dot_inj s1 s2 : Split_dot s1 = Split_dot s2 → s1 = s2.
Proof. intros Heq. by rewrite <- (Join_Split s1), Heq, Join_Split. Qed.

(** What holds of every byte of a string holds of every byte of every
    segment. *)
Lemma Split_dot_forall P s :
  string_forall P s = true →
  Forall (λ seg, string_forall P seg = true) (Split_dot s).
Proof.
  induction s as [|c s IH]; simpl; [by repeat constructor|].
  intros [Hc Hs]%andb_prop. specialize (IH Hs).
  destruct (decide (c = dot)); [by constructor|].
  destruct (Split_dot s) as [|seg segs].
  { repeat constructor. simpl. by rewrite Hc. }
  apply Forall_cons in IH as [Hseg Hsegs]. constructor; [|done].
  simpl. by rewrite Hc.
Qed.

Lemma Split_dot_no_dot s : Forall (λ seg, no_dot seg = true) (Split_dot s).
Proof.
  induction s as [|c s IH]; simpl; [by repeat constructor|].
  destruct (decide (c = dot)) as [->|Hc]; [by constructor|].
  destruct (Split_dot s) as [|seg segs].
  - repeat constructor. unfold no_dot. simpl. by rewrite bool_decide_eq_false_2.
  - apply Forall_cons in IH as [Hseg Hsegs]. constructor; [|done].
    unfold no_dot in *. simpl. by rewrite bool_decide_eq_false_2.
Qed.

Lemma Split_dot_length s :
  length (Split_dot s)
  = S (length (filter (λ c, c = dot) (list_ascii_of_string s))).
Proof.
  induction s as [|c s IH]; [done|]. rewrite Split_dot_cons.
  cbn [list_ascii_of_string]. rewrite filter_cons.
  destruct (decide (c = dot)) as [->|Hc]; simpl; [by rewrite IH|].
  pose proof (Split_dot_nonempty s).
  destruct (Split_dot s) as [|seg segs]; [done|]. by simpl in *.
Qed.

(** X10. The path of a key spells the lower-cased key: joined with dots
    the segments give [ToLower key] back, no segment has a dot in it, there
    is one segment more than there are dots, and two keys have the same
    path exactly when they are equal once lower-cased. *)
Theorem normalizeKey_spells_key key :
  Join_dot (normalizeKey key) = ToLower key ∧
  Forall (λ seg, no_dot seg = true) (normalizeKey key) ∧
  length (normalizeKey key)
  = S (length (filter (λ c, c = dot) (list_ascii_of_string (ToLower key)))) ∧
  ∀ key', normalizeKey key = normalizeKey key' ↔ ToLower key = ToLower key'.
Proof.
  unfold normalizeKey. split_and!.
  - apply Join_Split.
  - apply Split_dot_no_dot.
  - apply Split_dot_length.
  - intros key'. split; [apply Split_dot_inj | by intros ->].
Qed.

Lemma lower_byte_not_upper c : is_upper (lower_byte c) = false.
Proof. by destruct c as [[] [] [] [] [] [] [] []]. Qed.

Lemma lower_byte_ascii c : is_ascii c = true → is_ascii (lower_byte c) = true.
Proof. by destruct c as [[] [] [] [] [] [] [] []]. Qed.

Lemma lower_byte_id c : is_upper c = false → lower_byte c = c.
Proof. unfold lower_byte. by intros ->. Qed.

Lemma string_map_lower_id s :
  string_exists is_upper s = false → string_map lower_byte s = s.
Proof.
  induction s as [|c s IH]; simpl; [done|].
  intros [Hc Hs]%orb_false_elim. by rewrite lower_byte_id, IH.
Qed.

Lemma ToLower_ascii s :
  string_forall is_ascii s = true → ToLower s = string_map lower_byte s.
Proof.
  intros Hs. unfold ToLower. rewrite Hs.
  destruct (string_exists is_upper s) eqn:Hu; [done|].
  by rewrite string_map_lower_id.
Qed.

Lemma string_map_lower_no_upper s :
  string_exists is_upper (string_map lower_byte s) = false.
Proof.
  induction s as [|c s IH]; simpl; [done|].
  by rewrite lower_byte_not_upper, IH.
Qed.

Lemma string_map_lower_ascii s :
  string_forall is_ascii s = true →
  string_forall is_ascii (string_map lower_byte s) = true.
Proof.
  induction s as [|c s IH]; simpl; [done|].
  intros [Hc Hs]%andb_prop. by rewrite lower_byte_ascii, IH.
Qed.

(** X11. For a key of ASCII bytes: [ToLower] maps each byte on its own
    and lower-casing twice is lower-casing once, so the key and its
    lower-cased form have the same path; no segment of the path has an
    upper-case letter; and keys that differ in the case of letters only
    have the same path. *)
Theorem ascii_keys_fold_case key :
  string_forall is_ascii key = true →
  ToLower key = string_map lower_byte key ∧
  normalizeKey (ToLower key) = normalizeKey key ∧
  Forall (λ seg, no_upper seg = true) (normalizeKey key) ∧
  ∀ key', string_forall is_ascii key' = true →
          string_map lower_byte key = string_map lower_byte key' →
          normalizeKey key = normalizeKey key'.
Proof.
  intros Hascii. pose proof (ToLower_ascii key Hascii) as Hlow.
  assert (ToLower (ToLower key) = ToLower key) as Hidem.
  { rewrite Hlow at 2. rewrite Hlow, ToLower_ascii.
    - apply string_map_lower_id, string_map_lower_no_upper.
    - by apply string_map_lower_ascii. }
  split_and!.
  - done.
  - unfold normalizeKey. by rewrite Hidem.
  - unfold normalizeKey. rewrite Hlow.
    eapply Forall_impl.
    + apply (Split_dot_forall (λ c, negb (is_upper c))).
      generalize (string_map_lower_no_upper key).
      generalize (string_map lower_byte key). intros s.
      induction s as [|c s IH]; simpl; [done|].
      intros [-> Hs]%orb_false_elim. by rewrite IH.
    + intros seg Hseg. unfold no_upper. simpl in Hseg.
      induction seg as [|c seg IH]; simpl in *; [done|].
      apply andb_prop in Hseg as [Hc Hseg]. apply negb_true_iff in Hc.
      rewrite Hc. simpl. by apply IH.
  - intros key' Hascii' Hfold. unfold normalizeKey.
    by rewrite Hlow, (ToLower_ascii key' Hascii'), Hfold.
Qed.

End key_facts.

(** ** When [MarshalJSON] returns the empty string *)

Section empty_facts.
Context `{GoLibrary}.
Import orderedmap orderedmap_facts.
Implicit Types (p : list string) (state m : OrderedMap) (v : Value).

Lemma Value_nested_ind (P : Value → Prop) :
  (∀ s, P (VString s)) → (∀ n, P (VInt n)) → (∀ f, P (VFloat f)) →
  (∀ m, Forall (λ kv, P kv.2) m → P (VMap m)) →
  ∀ v, P v.
Proof.
  intros HS HI HF HM. fix IH 1. intros [s|n|f|m]; [done..|].
  apply HM. induction m as [|[k x] m IHm]; constructor; [apply IH | done].
Qed.

Lemma marshal_not_finite p v f :
  at_path p v = Some (VFloat f) → not_finite f = true → marshal v = None.
Proof.
  revert v. induction p as [|k p IH]; intros v Hp Hf.
  { injection Hp as ->. simpl. unfold not_finite in Hf. by rewrite Hf. }
  destruct v as [| | |m]; try done. simpl in Hp.
  destruct (Get k m) as [x|] eqn:HG; [|done]. simpl in Hp.
  apply eq_None_not_Some. intros Hsome.
  apply (marshal_Get k x) in Hsome; [|done].
  rewrite (IH x Hp Hf) in Hsome. by destruct Hsome.
Qed.

Lemma Get_elem_of k x m : NoDup (keys m) → (k, x) ∈ m → Get k m = Some x.
Proof.
  unfold keys. induction m as [|[k' y] m IH]; csimpl; intros Hnd Hin.
  { by apply elem_of_nil in Hin. }
  apply NoDup_cons in Hnd as [Hk' Hnd].
  apply elem_of_cons in Hin as [[= -> ->]|Hin]; [by rewrite decide_True|].
  rewrite decide_False; [by apply IH|].
  intros ->. apply Hk'. apply list_elem_of_fmap. by exists (k, x).
Qed.

Lemma marshal_too_deep v :
  (maxNestingDepth < nesting v)%Z → marshal v = None.
Proof.
  intros Hd. apply eq_None_not_Some. intros Hs%marshal_nesting. lia.
Qed.

Lemma marshal_None_cause v :
  (∀ p m, at_path p v = Some (VMap m) → NoDup (keys m)) →
  marshal v = None →
  (∃ p f, at_path p v = Some (VFloat f) ∧ not_finite f = true) ∨
  (maxNestingDepth < nesting v)%Z.
Proof.
  induction v as [s|n|f|m IH] using Value_nested_ind; intros Hu Hm;
    [done | done | | ].
  { left. exists [], f. split; [done|]. simpl in Hm. unfold not_finite.
    by destruct (PrimFloat.is_nan f || PrimFloat.is_infinity f). }
  destruct (decide (nesting (VMap m) ≤ maxNestingDepth)%Z) as [Hd|Hd];
    [|right; lia].
  left.
  assert (¬ Forall (λ kv, is_Some (marshal kv.2)) m) as Hnot.
  { intros HF.
    destruct (proj2 (marshal_VMap_is_Some m) (conj HF Hd)) as [s Hs].
    by rewrite Hs in Hm. }
  apply not_Forall_Exists in Hnot; [|apply _].
  apply Exists_exists in Hnot as ([k x] & Hin & Hx). simpl in Hx.
  apply eq_None_not_Some in Hx.
  assert (Get k m = Some x) as HG.
  { apply Get_elem_of; [|done]. by apply (Hu []). }
  rewrite Forall_forall in IH.
  destruct (IH (k, x) Hin) as [(p & f & Hp & Hf)|Hdeep]; [ | done | | ].
  { intros p m' Hp. apply (Hu (k :: p)). simpl. by rewrite HG. }
  - exists (k :: p), f. split; [|done]. simpl. by rewrite HG.
  - pose proof (nesting_Get _ _ _ HG). cbn [snd] in Hdeep. lia.
Qed.

(** A map is one level deep, or one level deeper than one of its values,
    itself a map. *)
Lemma nesting_VMap_cases m :
  nesting (VMap m) = 1%Z ∨
  ∃ k x, (k, x) ∈ m ∧ nesting (VMap m) = (1 + nesting x)%Z ∧
         (1 ≤ nesting x)%Z.
Proof.
  induction m as [|[k x] m IH]; [by left|].
  rewrite nesting_VMap_cons. pose proof (nesting_nonneg x).
  destruct (decide (nesting (VMap m) ≤ 1 + nesting x)%Z) as [Hle|Hgt].
  - destruct (decide (nesting x = 0%Z)) as [Hx|Hx].
    + left. pose proof (nesting_VMap_pos m). lia.
    + right. exists k, x. split_and!; [left | lia | lia].
  - destruct IH as [IH|(k' & y & Hin & Hy & Hpos)]; [lia|].
    right. exists k', y. split_and!; [by right | lia | done].
Qed.

(** The deepest map of a value is found at a path. *)
Lemma nesting_at_path v :
  (∀ p m, at_path p v = Some (VMap m) → NoDup (keys m)) →
  (1 ≤ nesting v)%Z →
  ∃ p m, at_path p v = Some (VMap m) ∧
         (Z.of_nat (length p) + 1 = nesting v)%Z.
Proof.
  induction v as [s|n|f|m IH] using Value_nested_ind; intros Hu Hpos;
    [simpl in Hpos; lia..|].
  destruct (nesting_VMap_cases m) as [H1|(k & x & Hin & Hx & Hxpos)].
  { exists [], m. split; [done|]. simpl length. lia. }
  assert (Get k m = Some x) as HG.
  { apply Get_elem_of; [|done]. by apply (Hu []). }
  rewrite Forall_forall in IH.
  destruct (IH (k, x) Hin) as (p & m' & Hp & Hlen); [ | done | ].
  { intros p m' Hp. apply (Hu (k :: p)). simpl. by rewrite HG. }
  exists (k :: p), m'. split; [simpl; by rewrite HG|].
  cbn [snd] in Hlen. cbn [length]. lia.
Qed.

Lemma keys_unique_at_path state p m :
  keys_unique state → at_path p (VMap state) = Some (VMap m) → NoDup (keys m).
Proof. intros Hu Hp. specialize (Hu p). unfold map_at in Hu. by rewrite Hp in Hu. Qed.

(** X12. With a store whose keys are distinct in every map (as they are
    in every store the calls build), [MarshalJSON] returns the empty
    string exactly when [json.Marshal] fails: when some path leads to a
    float that is a NaN or an infinity, or when a path of
    [maxNestingDepth] segments or more leads to a map, which makes more
    than [maxNestingDepth] objects nested in one another.  Otherwise it
    returns the text of the store, an object. *)
Theorem MarshalJSON_empty_iff ctx h c state :
  attached ctx h c state →
  keys_unique state →
  (MarshalJSON ctx h = Returns EmptyString h ↔
   (∃ p f, at_path p (VMap state) = Some (VFloat f) ∧ not_finite f = true) ∨
   (∃ p m, at_path p (VMap state) = Some (VMap m) ∧
           (maxNestingDepth ≤ Z.of_nat (length p))%Z)) ∧
  (∀ s, marshal (VMap state) = Some s →
        MarshalJSON ctx h = Returns s h ∧ ∃ body, s = "{" +:+ body +:+ "}").
Proof.
  intros Hatt Hu. rewrite (MarshalJSON_attached _ _ _ _ Hatt).
  unfold canonical_string, values.
  assert (∀ p m, at_path p (VMap state) = Some (VMap m) → NoDup (keys m))
    as Hu' by (intros p m; by apply keys_unique_at_path).
  split.
  - split.
    + intros Hret. destruct (marshal (VMap state)) as [s|] eqn:Hm.
      * destruct (marshal_object _ _ Hm) as [body ->]. simpl in Hret.
        by apply Returns_inj in Hret as [? _].
      * destruct (marshal_None_cause _ Hu' Hm) as [Hf|Hdeep]; [by left|].
        right.
        destruct (nesting_at_path (VMap state) Hu') as (p & m & Hp & Hlen).
        { apply nesting_VMap_pos. }
        exists p, m. split; [done | lia].
    + intros [(p & f & Hp & Hf)|(p & m & Hp & Hlen)].
      * by rewrite (marshal_not_finite _ _ _ Hp Hf).
      * rewrite marshal_too_deep; [done|].
        pose proof (at_path_nesting _ _ _ Hp).
        pose proof (nesting_VMap_pos m). lia.
  - intros s Hs. rewrite Hs. split; [done | by eapply marshal_object].
Qed.

End empty_facts.

(** ** A key of more segments than objects may nest *)

Section deep_facts.
Context `{GoLibrary}.
Import orderedmap orderedmap_facts.

Lemma chain_key_plain n :
  string_forall is_ascii (chain_key n) = true ∧
  string_exists is_upper (chain_key n) = false.
Proof.
  induction n as [|n [IH1 IH2]]; [done|].
  cbn [chain_key string_forall string_exists]. rewrite IH1, IH2. done.
Qed.

Lemma chain_key_path n : normalizeKey (chain_key n) = replicate (S n) "a".
Proof.
  unfold normalizeKey, ToLower.
  destruct (chain_key_plain n) as [-> ->].
  induction n as [|n IH]; [done|].
  cbn [chain_key]. rewrite !Split_dot_cons, IH.
  rewrite decide_False by done. by rewrite decide_True.
Qed.

Lemma set_chain n v : set (replicate (S n) "a") [] v = Some (chain_store n v).
Proof.
  induction n as [|n IH]; [done|].
  change (replicate (S (S n)) "a") with ("a" :: "a" :: replicate n "a").
  rewrite set_cons. cbn [Get].
  change ("a" :: replicate n "a") with (replicate (S n) "a").
  unfold New. by rewrite IH.
Qed.

Lemma chain_store_deep n v :
  (maxNestingDepth ≤ Z.of_nat n)%Z → marshal (VMap (chain_store n v)) = None.
Proof.
  intros Hn. apply marshal_too_deep.
  pose proof (at_path_nesting _ _ _
                (set_at_path _ _ _ _ (set_chain n v))) as Hd.
  rewrite length_replicate in Hd. pose proof (nesting_nonneg v). lia.
Qed.

(** One set of the key on a fresh carrier, and [MarshalJSON] after it. *)
Lemma chain_run n x :
  (maxNestingDepth ≤ Z.of_nat n)%Z →
  (ctx ← Init Background; SetAll ctx [(chain_key n, x)];; MarshalJSON ctx) ∅
  = Returns EmptyString (store 0 (chain_store n (scalar_value x)) ∅).
Proof.
  intros Hn.
  destruct (Init_absent Background ∅ eq_refl) as (c0 & _ & HI & Hatt0).
  assert (c0 = 0) as -> by (vm_compute in HI; congruence).
  unfold mbind at 1, M_bind at 1, bind at 1. rewrite HI.
  unfold mbind at 1, M_bind at 1, bind at 1.
  rewrite (SetAll_attached _ _ _ _ _ Hatt0).
  change (set_all (path_value <$> [(chain_key n, x)]) [])
    with (state' ← set (normalizeKey (chain_key n)) [] (scalar_value x);
          Some state').
  rewrite chain_key_path, set_chain. cbn [mbind option_bind].
  rewrite (MarshalJSON_attached _ _ _ _ (attached_store _ _ _ _ _ Hatt0)).
  rewrite store_store. unfold canonical_string, values.
  by rewrite chain_store_deep.
Qed.

Lemma chain_not_serialised n x :
  (maxNestingDepth ≤ Z.of_nat n)%Z →
  ¬ serialises_as_set Background ∅ [(chain_key n, x)].
Proof.
  intros Hn (c & state & s & _ & _ & Hs & Hin & _).
  specialize (Hin (chain_key n) x (list_elem_of_here _ _)).
  apply at_path_nesting in Hin.
  rewrite chain_key_path, length_replicate, nesting_scalar in Hin.
  assert (is_Some (marshal (VMap state))) as Hd%marshal_nesting by eauto.
  lia.
Qed.

Lemma paths_of_singleton key x : paths_of [(key, x)] = [normalizeKey key].
Proof. done. Qed.

Lemma prefix_free_singleton (p : list string) : prefix_free [p].
Proof.
  intros q1 q2 H1%list_elem_of_singleton H2%list_elem_of_singleton _.
  congruence.
Qed.

End deep_facts.

(** ** The middleware *)

Section middleware_facts.
Context `{GoLibrary} `{Strconv}.
Import orderedmap orderedmap_facts.
Implicit Types (ctx : Context) (h : Heap) (c : ptr) (state : OrderedMap).
Implicit Types (parts p q : list string).

Lemma SetString_set ctx h c state key value state' :
  attached ctx h c state →
  set (normalizeKey key) state (VString value) = Some state' →
  SetString ctx key value h = Returns tt (store c state' h).
Proof.
  intros Hatt Hset.
  change (SetString ctx key value) with (SetScalar ctx key (SString value)).
  rewrite (SetScalar_attached _ _ _ _ _ _ Hatt). simpl. by rewrite Hset.
Qed.

Lemma SetInt_set ctx h c state key value state' :
  attached ctx h c state →
  set (normalizeKey key) state (VInt value) = Some state' →
  SetInt ctx key value h = Returns tt (store c state' h).
Proof.
  intros Hatt Hset.
  change (SetInt ctx key value) with (SetScalar ctx key (SInt value)).
  rewrite (SetScalar_attached _ _ _ _ _ _ Hatt). simpl. by rewrite Hset.
Qed.

Lemma SetInt_blocked ctx h c state key value :
  attached ctx h c state → blocked (normalizeKey key) state = true →
  SetInt ctx key value h = Panics.
Proof.
  intros Hatt Hb.
  change (SetInt ctx key value) with (SetScalar ctx key (SInt value)).
  rewrite (SetScalar_attached _ _ _ _ _ _ Hatt).
  rewrite set_None; [done | apply normalizeKey_nonempty | done].
Qed.

Lemma blocked_cons a b r state :
  blocked (a :: b :: r) state =
  match Get a state with
  | Some (VMap val) => blocked (b :: r) val
  | Some _ => true
  | None => false
  end.
Proof. done. Qed.

(** Whether a path is blocked does not depend on its last segment. *)
Lemma blocked_last q k k' state :
  blocked (q ++ [k]) state = blocked (q ++ [k']) state.
Proof.
  revert state. induction q as [|a q IH]; intros state; [done|].
  assert (∃ b r, q ++ [k] = b :: r) as (b & r & Hq).
  { destruct q; simpl; eauto. }
  assert (∃ b' r', q ++ [k'] = b' :: r') as (b' & r' & Hq').
  { destruct q; simpl; eauto. }
  rewrite <- !app_comm_cons, Hq, Hq', !blocked_cons, <- Hq, <- Hq'.
  destruct (Get a state) as [[| | |m]|]; try done.
Qed.

(** A set of a scalar on a path does not block a path that is not
    longer. *)
Lemma set_keeps_clear parts p state state' v :
  set parts state v = Some state' → length p ≤ length parts →
  blocked p state = false → blocked p state' = false.
Proof.
  intros Hset Hlen Hclear. apply not_true_is_false.
  intros (q & w & Hq & Hne & Hw & Hs)%blocked_spec.
  assert (length q < length p) as Hlt.
  { destruct Hq as [[|x t] ->]; [by rewrite app_nil_r in Hne|].
    rewrite length_app. simpl. lia. }
  destruct (path_trichotomy q parts) as [(k & r & ->)|[Hpre|[Hn1 Hn2]]].
  - destruct (set_map_at _ _ _ _ _ _ Hset) as (x & Hx & _).
    rewrite Hx in Hw. by injection Hw as <-.
  - apply prefix_length in Hpre. lia.
  - rewrite (set_frame _ _ _ _ _ Hset) in Hw by done.
    assert (blocked p state = true) as Hb; [|congruence].
    apply blocked_spec. by exists q, w.
Qed.

Lemma attached_at ctx h c state :
  ctx_Value ctx contextKey = Canonical c → attached ctx (store c state h) c state.
Proof. intros Hctx. split; [done | apply lookup_insert_eq]. Qed.

(** The code the wrapper holds after the calls: the last one, 0 when
    there was none. *)
Lemma statusCode_last codes :
  statusCode (foldl WriteHeader {| statusCode := 0 |} codes)
  = default 0%Z (last codes).
Proof.
  induction codes as [|code codes IH] using rev_ind; [done|].
  by rewrite foldl_app, last_snoc.
Qed.

(** X13. On a request whose context holds nothing under [contextKey],
    with a handler that returns and leaves the heap alone, [ServeHTTP]
    ends in one call of [logFn], on one object: under http, the request
    with method, path and body_bytes, then the response with duration_ms,
    body_bytes and status_code, in this order.  The sizes are what [Atoi]
    gives for the two Content-Length headers as the handler left them; the
    status is the code of the handler's last [WriteHeader], and 0 when it
    called none. *)
Theorem ServeHTTP_logs_request cl r h served :
  ctx_Value (Request_Context r) contextKey = Nil →
  (∀ r' h', wrapped cl r' h' = Returns served h') →
  ∃ c,
    h !! c = None ∧
    ServeHTTP cl r h =
    logFn cl
      (js "{'http':{'request':{'method':" +:+ encode_string (Method r)
       +:+ js ",'path':" +:+ encode_string (URL_Path r)
       +:+ js ",'body_bytes':"
       +:+ encode_int (Atoi (request_Content_Length served))
       +:+ js "},'response':{'duration_ms':"
       +:+ encode_int (Milliseconds served)
       +:+ js ",'body_bytes':"
       +:+ encode_int (Atoi (response_Content_Length served))
       +:+ js ",'status_code':"
       +:+ encode_int (default 0%Z (last (WriteHeader_codes served)))
       +:+ "}}}")
      (store c
         [("http",
           VMap [("request",
                  VMap [("method", VString (Method r));
                        ("path", VString (URL_Path r));
                        ("body_bytes",
                         VInt (Atoi (request_Content_Length served)))]);
                 ("response",
                  VMap [("duration_ms", VInt (Milliseconds served));
                        ("body_bytes",
                         VInt (Atoi (response_Content_Length served)));
                        ("status_code",
                         VInt (default 0%Z
                                 (last (WriteHeader_codes served))))])])]
         h).
Proof.
  intros Hnil Hquiet.
  destruct (Init_absent _ h Hnil) as (c & Hc & HI & [Hctx _]).
  exists c. split; [done|].
  unfold ServeHTTP, mbind, M_bind, bind. rewrite HI.
  cbn [Request_Context WithContext Method URL_Path].
  set (m := Method r). set (u := URL_Path r).
  set (ctx := WithValue (Request_Context r) contextKey (Canonical c)) in *.
  pose (req1 := [("method", VString m)]).
  pose (req2 := [("method", VString m); ("path", VString u)]).
  rewrite (SetString_set ctx _ c [] "http.request.method" m
             [("http", VMap [("request", VMap req1)])]
             (attached_at _ _ _ _ Hctx) eq_refl), store_store.
  rewrite (SetString_set ctx _ c [("http", VMap [("request", VMap req1)])]
             "http.request.path" u
             [("http", VMap [("request", VMap req2)])]
             (attached_at _ _ _ _ Hctx) eq_refl), store_store.
  rewrite Hquiet.
  set (d := Milliseconds served).
  set (n1 := Atoi (request_Content_Length served)).
  set (n2 := Atoi (response_Content_Length served)).
  rewrite statusCode_last.
  set (code := default 0%Z (last (WriteHeader_codes served))).
  pose (req3 := [("method", VString m); ("path", VString u);
                 ("body_bytes", VInt n1)]).
  pose (resp1 := [("duration_ms", VInt d)]).
  pose (resp2 := [("duration_ms", VInt d); ("body_bytes", VInt n2)]).
  pose (resp3 := [("duration_ms", VInt d); ("body_bytes", VInt n2);
                  ("status_code", VInt code)]).
  rewrite (SetInt_set ctx _ c [("http", VMap [("request", VMap req2)])]
             "http.response.duration_ms" d
             [("http", VMap [("request", VMap req2);
                             ("response", VMap resp1)])]
             (attached_at _ _ _ _ Hctx) eq_refl), store_store.
  rewrite (SetInt_set ctx _ c
             [("http", VMap [("request", VMap req2);
                             ("response", VMap resp1)])]
             "http.request.body_bytes" n1
             [("http", VMap [("request", VMap req3);
                             ("response", VMap resp1)])]
             (attached_at _ _ _ _ Hctx) eq_refl), store_store.
  rewrite (SetInt_set ctx _ c
             [("http", VMap [("request", VMap req3);
                             ("response", VMap resp1)])]
             "http.response.body_bytes" n2
             [("http", VMap [("request", VMap req3);
                             ("response", VMap resp2)])]
             (attached_at _ _ _ _ Hctx) eq_refl), store_store.
  rewrite (SetInt_set ctx _ c
             [("http", VMap [("request", VMap req3);
                             ("response", VMap resp2)])]
             "http.response.status_code" code
             [("http", VMap [("request", VMap req3);
                             ("response", VMap resp3)])]
             (attached_at _ _ _ _ Hctx) eq_refl), store_store.
  subst req1 req2 req3 resp1 resp2 resp3.
  rewrite (MarshalJSON_attached _ _ _ _ (attached_at _ _ _ _ Hctx)).
  f_equal. unfold canonical_string, values.
  cbn [marshal map fst snd]. simpl. rewrite !append_assoc. reflexivity.
Qed.

Lemma SetInt_clear ctx h c state key value :
  attached ctx h c state → blocked (normalizeKey key) state = false →
  ∃ state',
    set (normalizeKey key) state (VInt value) = Some state' ∧
    SetInt ctx key value h = Returns tt (store c state' h).
Proof.
  intros Hatt Hclear.
  destruct (set_is_Some (normalizeKey key) state (VInt value))
    as [state' Hset]; [apply normalizeKey_nonempty | done |].
  exists state'. split; [done|]. by eapply SetInt_set.
Qed.

Lemma not_prefix_same_length {A} (l1 l2 : list A) :
  length l2 ≤ length l1 → l1 ≠ l2 → ¬ l1 `prefix_of` l2.
Proof. intros Hlen Hne Hpre. by apply Hne, prefix_length_eq. Qed.

(** The start of [ServeHTTP] on a request that carries a store: up to the
    return of the handler. *)
Lemma ServeHTTP_attached cl r h c state state1 served h2 :
  attached (Request_Context r) h c state →
  set_all (request_fields r) state = Some state1 →
  wrapped cl (WithContext r (Request_Context r)) (store c state1 h)
  = Returns served h2 →
  ServeHTTP cl r h =
  (SetInt (Request_Context r) "http.response.duration_ms"
     (Milliseconds served);;
   SetInt (Request_Context r) "http.request.body_bytes"
     (Atoi (request_Content_Length served));;
   SetInt (Request_Context r) "http.response.body_bytes"
     (Atoi (response_Content_Length served));;
   SetInt (Request_Context r) "http.response.status_code"
     (default 0%Z (last (WriteHeader_codes served)));;
   log ← MarshalJSON (Request_Context r);
   logFn cl log) h2.
Proof.
  intros Hatt Hsets Hserved. unfold request_fields in Hsets.
  cbn [set_all] in Hsets.
  destruct (set ["http"; "request"; "method"] state (VString (Method r)))
    as [sta|] eqn:Hs1; [|done]. cbn [mbind option_bind] in Hsets.
  destruct (set ["http"; "request"; "path"] sta (VString (URL_Path r)))
    as [stb|] eqn:Hs2; [|done]. injection Hsets as <-.
  unfold ServeHTTP, mbind, M_bind, bind.
  rewrite (Init_attached _ _ _ _ Hatt).
  cbn [Request_Context WithContext Method URL_Path].
  rewrite (SetString_set _ _ c state "http.request.method" _ sta Hatt Hs1).
  rewrite (SetString_set _ _ c sta "http.request.path" _ stb
             (attached_store _ _ _ _ _ Hatt) Hs2).
  rewrite store_store, Hserved. by rewrite statusCode_last.
Qed.

(** X14. On a request that carries a store, once the two request fields
    are set and the handler has returned with the store clear at
    http.response and http.request, [ServeHTTP] ends in one call of
    [logFn] on the text of the store, in which the four response fields
    hold what the middleware measured, whatever the handler had put at
    those keys, and every path off those four reads as the handler left
    it. *)
Theorem ServeHTTP_fields_are_final cl r h c state state1 served h2 state2 :
  attached (Request_Context r) h c state →
  set_all (request_fields r) state = Some state1 →
  wrapped cl (WithContext r (Request_Context r)) (store c state1 h)
  = Returns served h2 →
  h2 !! c = Some {| values := state2 |} →
  clear_path ["http"; "response"; "duration_ms"] state2 →
  clear_path ["http"; "request"; "body_bytes"] state2 →
  ∃ state',
    ServeHTTP cl r h
    = logFn cl (canonical_string {| values := state' |}) (store c state' h2) ∧
    at_path ["http"; "response"; "duration_ms"] (VMap state')
    = Some (VInt (Milliseconds served)) ∧
    at_path ["http"; "request"; "body_bytes"] (VMap state')
    = Some (VInt (Atoi (request_Content_Length served))) ∧
    at_path ["http"; "response"; "body_bytes"] (VMap state')
    = Some (VInt (Atoi (response_Content_Length served))) ∧
    at_path ["http"; "response"; "status_code"] (VMap state')
    = Some (VInt (default 0%Z (last (WriteHeader_codes served)))) ∧
    ∀ p, Forall (λ q, ¬ p `prefix_of` q ∧ ¬ q `prefix_of` p) response_paths →
         at_path p (VMap state') = at_path p (VMap state2).
Proof.
  intros Hatt Hsets Hserved Hh2 Hresp%clear_path_blocked Hreq%clear_path_blocked.
  rewrite (ServeHTTP_attached _ _ _ _ _ _ _ _ Hatt Hsets Hserved).
  assert (attached (Request_Context r) h2 c state2) as Hatt2.
  { destruct Hatt as [Hctx _]. by split. }
  set (ctx := Request_Context r) in *.
  unfold mbind, M_bind, bind.
  destruct (SetInt_clear ctx h2 c state2 "http.response.duration_ms"
              (Milliseconds served) Hatt2 Hresp) as (s3 & Hs3 & ->).
  pose proof (set_keeps_clear _ ["http"; "response"; "duration_ms"] _ _ _ Hs3
                ltac:(done) Hresp) as Hresp3.
  pose proof (set_keeps_clear _ ["http"; "request"; "body_bytes"] _ _ _ Hs3
                ltac:(done) Hreq) as Hreq3.
  destruct (SetInt_clear ctx _ c s3 "http.request.body_bytes"
              (Atoi (request_Content_Length served))
              (attached_store _ _ _ _ _ Hatt2) Hreq3) as (s4 & Hs4 & ->).
  pose proof (set_keeps_clear _ ["http"; "response"; "duration_ms"] _ _ _ Hs4
                ltac:(done) Hresp3) as Hresp4.
  rewrite store_store.
  destruct (SetInt_clear ctx (store c s4 h2) c s4 "http.response.body_bytes"
              (Atoi (response_Content_Length served))
              (attached_store _ _ _ _ _ Hatt2)) as (s5 & Hs5 & ->).
  { exact (eq_trans (blocked_last ["http"; "response"] _ "duration_ms" s4)
             Hresp4). }
  pose proof (set_keeps_clear _ ["http"; "response"; "duration_ms"] _ _ _ Hs5
                ltac:(done) Hresp4) as Hresp5.
  rewrite store_store.
  destruct (SetInt_clear ctx (store c s5 h2) c s5 "http.response.status_code"
              (default 0%Z (last (WriteHeader_codes served)))
              (attached_store _ _ _ _ _ Hatt2)) as (s6 & Hs6 & ->).
  { exact (eq_trans (blocked_last ["http"; "response"] _ "duration_ms" s5)
             Hresp5). }
  rewrite store_store.
  rewrite (MarshalJSON_attached _ _ _ _ (attached_store _ _ _ _ s6 Hatt2)).
  exists s6. split; [done|].
  change (normalizeKey "http.response.duration_ms")
    with ["http"; "response"; "duration_ms"] in Hs3.
  change (normalizeKey "http.request.body_bytes")
    with ["http"; "request"; "body_bytes"] in Hs4.
  change (normalizeKey "http.response.body_bytes")
    with ["http"; "response"; "body_bytes"] in Hs5.
  change (normalizeKey "http.response.status_code")
    with ["http"; "response"; "status_code"] in Hs6.
  split_and!.
  - rewrite (set_frame _ _ _ _ _ Hs6), (set_frame _ _ _ _ _ Hs5),
      (set_frame _ _ _ _ _ Hs4);
      [by eapply set_at_path | by apply not_prefix_same_length..].
  - rewrite (set_frame _ _ _ _ _ Hs6), (set_frame _ _ _ _ _ Hs5);
      [by eapply set_at_path | by apply not_prefix_same_length..].
  - rewrite (set_frame _ _ _ _ _ Hs6);
      [by eapply set_at_path | by apply not_prefix_same_length..].
  - by eapply set_at_path.
  - intros p Hoff. unfold response_paths in Hoff.
    apply Forall_cons in Hoff as [[? ?] Hoff].
    apply Forall_cons in Hoff as [[? ?] Hoff].
    apply Forall_cons in Hoff as [[? ?] Hoff].
    apply Forall_cons in Hoff as [[? ?] _].
    by rewrite (set_frame _ _ _ _ _ Hs6), (set_frame _ _ _ _ _ Hs5),
      (set_frame _ _ _ _ _ Hs4), (set_frame _ _ _ _ _ Hs3).
Qed.

(** X15. If the handler returns with a scalar at http, at http.response
    or at http.request, [ServeHTTP] panics in one of its own sets:
    [logFn] is not called. *)
Theorem ServeHTTP_panics_on_scalar cl r h c state state1 served h2 state2 :
  attached (Request_Context r) h c state →
  set_all (request_fields r) state = Some state1 →
  wrapped cl (WithContext r (Request_Context r)) (store c state1 h)
  = Returns served h2 →
  h2 !! c = Some {| values := state2 |} →
  ¬ clear_path ["http"; "response"; "duration_ms"] state2 ∨
  ¬ clear_path ["http"; "request"; "body_bytes"] state2 →
  ServeHTTP cl r h = Panics.
Proof.
  intros Hatt Hsets Hserved Hh2 Hblocked.
  rewrite (ServeHTTP_attached _ _ _ _ _ _ _ _ Hatt Hsets Hserved).
  assert (attached (Request_Context r) h2 c state2) as Hatt2.
  { destruct Hatt as [Hctx _]. by split. }
  set (ctx := Request_Context r) in *.
  unfold mbind, M_bind, bind.
  destruct (blocked ["http"; "response"; "duration_ms"] state2) eqn:Hresp.
  { by rewrite (SetInt_blocked _ _ _ _ "http.response.duration_ms" _ Hatt2
                 Hresp). }
  destruct Hblocked as [Hb|Hb]; rewrite clear_path_blocked in Hb; [done|].
  apply not_false_is_true in Hb.
  destruct (SetInt_clear ctx h2 c state2 "http.response.duration_ms"
              (Milliseconds served) Hatt2 Hresp) as (s3 & Hs3 & ->).
  rewrite (SetInt_blocked _ _ _ _ "http.request.body_bytes" _
             (attached_store _ _ _ _ s3 Hatt2)); [done|].
  by eapply set_keeps_blocked.
Qed.

End middleware_facts.

(** * Concrete runs *)

Section runs.
Import orderedmap.
Local Existing Instance ascii_only.

Lemma prefix_free_Forall paths :
  prefix_free paths ↔
  Forall (λ p, Forall (λ q, p `prefix_of` q → p = q) paths) paths.
Proof.
  unfold prefix_free. rewrite Forall_forall. setoid_rewrite Forall_forall.
  naive_solver.
Qed.

Lemma attached1 : attached ctx1 heap1 0 state1.
Proof. split; reflexivity. Defined.

Lemma SetAll_then_MarshalJSON_witness :
  let ops := [("http.request.path", SString "/foo");
              ("http.request.code", SString "200");
              ("HTTP.response.duration_ms", SInt 10)] in
  ctx_Value Background contextKey = Nil ∧
  NoDup (paths_of ops) ∧ prefix_free (paths_of ops) ∧
  Forall (λ p, (Z.of_nat (length p) ≤ maxNestingDepth)%Z) (paths_of ops) ∧
  Forall (λ op, json_encodable op.2 = true) ops ∧
  serialises_as_set Background ∅ ops.
Proof.
  intros ops.
  assert (NoDup (paths_of ops)) as Hnd.
  { apply (bool_decide_unpack _). vm_compute. exact I. }
  assert (prefix_free (paths_of ops)) as Hpf.
  { apply prefix_free_Forall. apply (bool_decide_unpack _). vm_compute.
    exact I. }
  assert (Forall (λ p, (Z.of_nat (length p) ≤ maxNestingDepth)%Z)
            (paths_of ops)) as Hlen.
  { apply (bool_decide_unpack _). vm_compute. exact I. }
  assert (Forall (λ op, json_encodable op.2 = true) ops) as Henc.
  { repeat constructor. }
  split_and!; [reflexivity | exact Hnd | exact Hpf | exact Hlen | exact Henc |].
  exact (SetAll_then_MarshalJSON Background ∅ ops eq_refl Hnd Hpf Hlen Henc).
Defined.

Lemma clear1 : clear_path (normalizeKey "HTTP.Request.Code") state1.
Proof. apply clear_path_blocked. reflexivity. Defined.

Lemma dotted_key_nests_witness :
  attached ctx1 heap1 0 state1 ∧
  clear_path (normalizeKey "HTTP.Request.Code") state1 ∧
  ∃ state',
    SetScalar ctx1 "HTTP.Request.Code" (SString "200") heap1
    = Returns tt (store 0 state' heap1) ∧
    at_path ["http"; "request"; "code"] (VMap state') = Some (VString "200").
Proof.
  split_and!; [exact attached1 | exact clear1 |].
  destruct (dotted_key_nests ctx1 heap1 0 state1 "HTTP.Request.Code"
              (SString "200") attached1 clear1) as [(state' & Hr & Hv & _) _].
  exists state'. split; [exact Hr | exact Hv].
Defined.

Lemma clear2 : clear_path (normalizeKey "http.status") state1.
Proof. apply clear_path_blocked. reflexivity. Defined.

Lemma Add_at_leaf_witness :
  attached ctx1 heap1 0 state1 ∧
  clear_path (normalizeKey "http.status") state1 ∧
  ∃ state',
    AddInt ctx1 "http.status" 1 heap1 = Returns tt (store 0 state' heap1) ∧
    at_path ["http"; "status"] (VMap state') = Some (VInt 201).
Proof.
  split_and!; [exact attached1 | exact clear2 |].
  destruct (Add_at_leaf ctx1 heap1 0 state1 "http.status" attached1 clear2)
    as [Hint _].
  destruct (Hint 1%Z) as (state' & Hr & Hv).
  exists state'. split; [exact Hr | exact Hv].
Defined.

Lemma Set_twice_overwrites_witness :
  normalizeKey "Foo.Bar" = normalizeKey "foo.bar" ∧
  (SetScalar ctx1 "Foo.Bar" (SInt 1) ;; SetScalar ctx1 "foo.bar" (SString "x"))
    heap1
  = SetScalar ctx1 "foo.bar" (SString "x") heap1.
Proof.
  split; [reflexivity|].
  exact (proj1 (Set_twice_overwrites ctx1 heap1 "Foo.Bar" "foo.bar"
                  (SInt 1) (SString "x") eq_refl)).
Defined.

Lemma clear3 : clear_path ["foo"; "bar"] state1.
Proof. apply clear_path_blocked. reflexivity. Defined.

Lemma keys_case_insensitive_witness :
  attached ctx1 heap1 0 state1 ∧ clear_path ["foo"; "bar"] state1 ∧
  ∃ state',
    (SetInt ctx1 "Foo.Bar" 1 ;; SetInt ctx1 "foo.bar" 2) heap1
    = Returns tt (store 0 state' heap1) ∧
    at_path ["foo"; "bar"] (VMap state') = Some (VInt 2).
Proof.
  split_and!; [exact attached1 | exact clear3 |].
  destruct (keys_case_insensitive ctx1 heap1) as (_ & _ & Hstate & _).
  destruct (Hstate 0 state1 attached1 clear3) as (state' & Hr & Hv & _).
  exists state'. split; [exact Hr | exact Hv].
Defined.

Lemma no_store_silent_witness :
  no_store (WithValue Background contextKey (Foreign 7)) ∧
  SetInt (WithValue Background contextKey (Foreign 7)) "a.b" 1 heap1
  = Returns tt heap1 ∧
  MarshalJSON (WithValue Background contextKey (Foreign 7)) heap1
  = Returns EmptyString heap1.
Proof.
  assert (no_store (WithValue Background contextKey (Foreign 7))) as Hno
    by reflexivity.
  destruct (no_store_silent _ heap1 Hno) as (_ & Hset & _ & _ & _ & Hjson).
  split_and!; [exact Hno | apply Hset | exact Hjson].
Defined.

Lemma MarshalJSON_read_only_witness :
  live ctx1 heap1 ∧
  ∃ s, MarshalJSON ctx1 heap1 = Returns s heap1 ∧
       (s1 ← MarshalJSON ctx1; s2 ← MarshalJSON ctx1; mret (s1, s2)) heap1
       = Returns (s, s) heap1.
Proof.
  assert (live ctx1 heap1) as Hlive.
  { intros c Hc. injection Hc as <-. eexists. reflexivity. }
  split; [exact Hlive|]. exact (MarshalJSON_read_only ctx1 heap1 Hlive).
Defined.

Lemma scalar_on_the_way :
  ∃ q v, q `prefix_of` normalizeKey "http.status.code" ∧
         q ≠ normalizeKey "http.status.code" ∧
         at_path q (VMap state1) = Some v ∧ is_scalar v = true.
Proof.
  exists ["http"; "status"], (VInt 200).
  split_and!; [by exists ["code"] | discriminate | reflexivity | reflexivity].
Defined.

Lemma set_through_scalar_panics_witness :
  attached ctx1 heap1 0 state1 ∧
  SetInt ctx1 "http.status.code" 200 heap1 = Panics.
Proof.
  split; [exact attached1|].
  destruct (set_through_scalar_panics ctx1 heap1 0 state1 "http.status.code"
              attached1 scalar_on_the_way) as (_ & Hint & _).
  apply Hint.
Defined.

Lemma Init_idempotent_witness :
  attached ctx1 heap1 0 state1 ∧
  Init ctx1 heap1 = Returns ctx1 heap1 ∧
  Init (WithValue ctx1 "foo" (Foreign 0)) heap1
  = Returns (WithValue ctx1 "foo" (Foreign 0)) heap1.
Proof.
  destruct (Init_idempotent ctx1 heap1 0 state1 attached1) as (HI & _ & Hd).
  split_and!; [exact attached1 | exact HI |].
  refine (proj1 (Hd "foo" (Foreign 0) _)). discriminate.
Defined.

Lemma Init_attaches_witness :
  ctx_Value (WithValue Background "foo" (Foreign 0)) contextKey = Nil ∧
  ∃ c, heap1 !! c = None ∧
       (ctx' ← Init (WithValue Background "foo" (Foreign 0));
        MarshalJSON ctx') heap1
       = Returns "{}" (store c [] heap1).
Proof.
  split; [reflexivity|].
  destruct (Init_attaches (WithValue Background "foo" (Foreign 0)) heap1
              eq_refl) as (c & Hc & _ & Hjson).
  exists c. split; [exact Hc | exact Hjson].
Defined.

Lemma clear4 : clear_path (normalizeKey "http.response.bytes") state1.
Proof. apply clear_path_blocked. reflexivity. Defined.

Lemma AddInt_accumulates_witness :
  attached ctx1 heap1 0 state1 ∧
  clear_path (normalizeKey "http.response.bytes") state1 ∧
  at_path (normalizeKey "http.response.bytes") (VMap state1) = None ∧
  ∃ state',
    (AddInt ctx1 "http.response.bytes" 2 ;;
     AddInt ctx1 "http.response.bytes" 40) heap1
    = Returns tt (store 0 state' heap1) ∧
    at_path ["http"; "response"; "bytes"] (VMap state') = Some (VInt 42).
Proof.
  split_and!; [exact attached1 | exact clear4 | reflexivity |].
  exact (AddInt_accumulates ctx1 heap1 0 state1 "http.response.bytes" 2 40
           attached1 clear4 eq_refl).
Defined.

Local Existing Instance digits_Atoi.

Lemma not_clear1 : ¬ clear_path (normalizeKey "http.status.code") state1.
Proof. rewrite clear_path_blocked. discriminate. Defined.

Lemma scalar_blocks_forever_witness :
  attached ctx1 heap1 0 state1 ∧
  ¬ clear_path (normalizeKey "http.status.code") state1 ∧
  (do_calls ctx1 [CallSet "user.id" (SInt 7); CallAddInt "http.hits" 1] ;;
   do_call ctx1 (CallAddInt "http.status.code" 1)) heap1 = Panics.
Proof.
  split_and!; [exact attached1 | exact not_clear1 |].
  exact (scalar_blocks_forever ctx1 heap1 0 state1
           [CallSet "user.id" (SInt 7); CallAddInt "http.hits" 1]
           (CallAddInt "http.status.code" 1) attached1 not_clear1).
Defined.

Lemma keys_stay_unique_witness :
  ctx_Value Background contextKey = Nil ∧
  ((ctx ← Init Background;
    do_calls ctx [CallSet "a.b" (SInt 1); CallAddInt "a.b" 2]) ∅ = Panics ∨
   ∃ c state,
     (ctx ← Init Background;
      do_calls ctx [CallSet "a.b" (SInt 1); CallAddInt "a.b" 2]) ∅
     = Returns tt (store c state ∅) ∧
     keys_unique state).
Proof.
  split; [reflexivity|].
  exact (keys_stay_unique Background ∅
           [CallSet "a.b" (SInt 1); CallAddInt "a.b" 2] eq_refl).
Defined.

Lemma keys_keep_their_place_witness :
  attached ctx1 heap1 0 state1 ∧
  (do_calls ctx1 [CallSet "user.id" (SInt 7); CallSet "http" (SInt 0)] heap1
   = Panics ∨
   ∃ state',
     do_calls ctx1 [CallSet "user.id" (SInt 7); CallSet "http" (SInt 0)] heap1
     = Returns tt (store 0 state' heap1) ∧
     orderedmap.keys state1 `prefix_of` orderedmap.keys state').
Proof.
  split; [exact attached1|].
  exact (proj2 (keys_keep_their_place ctx1 heap1 0 state1 attached1)
           [CallSet "user.id" (SInt 7); CallSet "http" (SInt 0)]).
Defined.

Lemma off_paths1 :
  Forall (λ cl, ¬ ["http"; "status"] `prefix_of` normalizeKey (call_key cl) ∧
                ¬ normalizeKey (call_key cl) `prefix_of` ["http"; "status"])
    [CallSet "user.id" (SInt 7); CallAddInt "http.request.hits" 1].
Proof. repeat constructor; by intros [? [=]]. Defined.

Lemma calls_frame_witness :
  attached ctx1 heap1 0 state1 ∧
  (do_calls ctx1 [CallSet "user.id" (SInt 7);
                  CallAddInt "http.request.hits" 1] heap1 = Panics ∨
   ∃ state',
     do_calls ctx1 [CallSet "user.id" (SInt 7);
                    CallAddInt "http.request.hits" 1] heap1
     = Returns tt (store 0 state' heap1) ∧
     at_path ["http"; "status"] (VMap state')
     = at_path ["http"; "status"] (VMap state1)).
Proof.
  split; [exact attached1|].
  exact (calls_frame ctx1 heap1 0 state1 _ ["http"; "status"] attached1
           off_paths1).
Defined.

Lemma AddInt_AddInt_witness :
  normalizeKey "Http.Hits" = normalizeKey "http.hits" ∧
  (AddInt ctx1 "Http.Hits" 2 ;; AddInt ctx1 "http.hits" 40) heap1
  = AddInt ctx1 "http.hits" 42 heap1.
Proof.
  split; [reflexivity|].
  exact (AddInt_AddInt ctx1 heap1 "Http.Hits" "http.hits" 2 40 eq_refl).
Defined.

Lemma Set_then_Add_witness :
  normalizeKey "Http.Status" = normalizeKey "http.status" ∧
  (SetScalar ctx1 "Http.Status" (SInt 200) ;; AddInt ctx1 "http.status" 1)
    heap1
  = SetScalar ctx1 "http.status" (SInt 201) heap1 ∧
  (SetScalar ctx1 "Http.Status" (SString "ok") ;; AddInt ctx1 "http.status" 1)
    heap1
  = SetScalar ctx1 "http.status" (SString "ok") heap1.
Proof.
  split_and!; [reflexivity | |].
  - exact (proj1 (Set_then_Add ctx1 heap1 "Http.Status" "http.status"
                    (SInt 200) eq_refl) 1%Z).
  - exact (proj1 (Set_then_Add ctx1 heap1 "Http.Status" "http.status"
                    (SString "ok") eq_refl) 1%Z).
Defined.

Lemma ascii_keys_fold_case_witness :
  string_forall is_ascii "Http.Request.Path" = true ∧
  normalizeKey "Http.Request.Path" = normalizeKey "http.REQUEST.path" ∧
  Forall (λ seg, no_upper seg = true) (normalizeKey "Http.Request.Path").
Proof.
  destruct (ascii_keys_fold_case "Http.Request.Path" eq_refl)
    as (_ & _ & Hlow & Hfold).
  split_and!; [reflexivity | | exact Hlow].
  apply Hfold; reflexivity.
Defined.

Lemma keys_unique1 : keys_unique state1.
Proof.
  apply (set_all_keys_unique
           [(["http"; "request"; "path"], VString "/foo");
            (["http"; "status"], VInt 200)] []);
    [repeat constructor | apply keys_unique_empty | reflexivity].
Defined.

Lemma MarshalJSON_empty_iff_witness :
  attached ctx1 heap1 0 state1 ∧ keys_unique state1 ∧
  (MarshalJSON ctx1 heap1 = Returns EmptyString heap1 ↔
   (∃ p f, at_path p (VMap state1) = Some (VFloat f) ∧ not_finite f = true) ∨
   (∃ p m, at_path p (VMap state1) = Some (VMap m) ∧
           (maxNestingDepth ≤ Z.of_nat (length p))%Z)).
Proof.
  split_and!; [exact attached1 | exact keys_unique1 |].
  exact (proj1 (MarshalJSON_empty_iff ctx1 heap1 0 state1
                  attached1 keys_unique1)).
Defined.

Lemma ServeHTTP_logs_request_witness :
  ctx_Value (Request_Context (GET_test Background)) contextKey = Nil ∧
  (∀ r' h', wrapped quiet_logger r' h' = Returns served_ok h') ∧
  ∃ c log h',
    ServeHTTP quiet_logger (GET_test Background) ∅
    = logFn quiet_logger log h' ∧ (∅ : Heap) !! c = None.
Proof.
  split_and!; [reflexivity | reflexivity |].
  destruct (ServeHTTP_logs_request quiet_logger (GET_test Background) ∅
              served_ok eq_refl (λ _ _, eq_refl)) as (c & Hc & Hlog).
  exists c. eexists. eexists. split; [exact Hlog | exact Hc].
Defined.

Lemma clear_response : clear_path ["http"; "response"; "duration_ms"] state1_annotated.
Proof. apply clear_path_blocked. reflexivity. Defined.

Lemma clear_request : clear_path ["http"; "request"; "body_bytes"] state1_annotated.
Proof. apply clear_path_blocked. reflexivity. Defined.

Lemma off_response_paths :
  Forall (λ q, ¬ ["user"; "id"] `prefix_of` q ∧ ¬ q `prefix_of` ["user"; "id"])
    response_paths.
Proof. repeat constructor; by intros [? [=]]. Defined.

Lemma ServeHTTP_fields_are_final_witness :
  attached (Request_Context (GET_test ctx1)) heap1 0 state1 ∧
  set_all (request_fields (GET_test ctx1)) state1 = Some state1_request ∧
  wrapped annotating_logger (WithContext (GET_test ctx1) ctx1)
    (store 0 state1_request heap1)
  = Returns served_ok (store 0 state1_annotated heap1) ∧
  store 0 state1_annotated heap1 !! 0 = Some {| values := state1_annotated |} ∧
  clear_path ["http"; "response"; "duration_ms"] state1_annotated ∧
  clear_path ["http"; "request"; "body_bytes"] state1_annotated ∧
  ∃ state',
    ServeHTTP annotating_logger (GET_test ctx1) heap1
    = logFn annotating_logger (canonical_string {| values := state' |})
        (store 0 state' (store 0 state1_annotated heap1)) ∧
    at_path ["http"; "response"; "status_code"] (VMap state')
    = Some (VInt 200) ∧
    at_path ["user"; "id"] (VMap state') = Some (VInt 42).
Proof.
  assert (wrapped annotating_logger (WithContext (GET_test ctx1) ctx1)
            (store 0 state1_request heap1)
          = Returns served_ok (store 0 state1_annotated heap1)) as Hserved
    by (vm_compute; reflexivity).
  assert (store 0 state1_annotated heap1 !! 0
          = Some {| values := state1_annotated |}) as Hh2
    by (vm_compute; reflexivity).
  split_and!; [exact attached1 | reflexivity | exact Hserved | exact Hh2
              | exact clear_response | exact clear_request |].
  destruct (ServeHTTP_fields_are_final annotating_logger (GET_test ctx1) heap1
              0 state1 state1_request served_ok _ state1_annotated
              attached1 eq_refl Hserved Hh2 clear_response clear_request)
    as (state' & Hlog & _ & _ & _ & Hcode & Hoff).
  exists state'. split_and!; [exact Hlog | exact Hcode |].
  rewrite (Hoff ["user"; "id"] off_response_paths). reflexivity.
Defined.

Lemma not_clear_response :
  ¬ clear_path ["http"; "response"; "duration_ms"] state1_clobbered.
Proof. rewrite clear_path_blocked. discriminate. Defined.

Lemma ServeHTTP_panics_on_scalar_witness :
  attached (Request_Context (GET_test ctx1)) heap1 0 state1 ∧
  set_all (request_fields (GET_test ctx1)) state1 = Some state1_request ∧
  wrapped clobbering_logger (WithContext (GET_test ctx1) ctx1)
    (store 0 state1_request heap1)
  = Returns served_ok (store 0 state1_clobbered heap1) ∧
  store 0 state1_clobbered heap1 !! 0 = Some {| values := state1_clobbered |} ∧
  ¬ clear_path ["http"; "response"; "duration_ms"] state1_clobbered ∧
  ServeHTTP clobbering_logger (GET_test ctx1) heap1 = Panics.
Proof.
  assert (wrapped clobbering_logger (WithContext (GET_test ctx1) ctx1)
            (store 0 state1_request heap1)
          = Returns served_ok (store 0 state1_clobbered heap1)) as Hserved
    by (vm_compute; reflexivity).
  assert (store 0 state1_clobbered heap1 !! 0
          = Some {| values := state1_clobbered |}) as Hh2
    by (vm_compute; reflexivity).
  split_and!; [exact attached1 | reflexivity | exact Hserved | exact Hh2
              | exact not_clear_response |].
  exact (ServeHTTP_panics_on_scalar clobbering_logger (GET_test ctx1) heap1
           0 state1 state1_request served_ok _ state1_clobbered
           attached1 eq_refl Hserved Hh2 (or_introl not_clear_response)).
Defined.

(** C1 with distinct keys as its only condition fails.  The keys of each
    sequence below are pairwise distinct,
    under any library, and the carrier is the background context on an
    empty heap.  After [Set("a.b", 1)], [Set("a", 2)] the store holds 2 at
    a and nothing at a.b; [Set("a", 1)], [Set("a.b", 2)] panics in the
    second call; after [SetFloat64("x", NaN)] [MarshalJSON] returns the
    empty string; and so it does after one [Set] of the key a.a. ... .a of
    [maxNestingDepth + 1] segments, which nests that many objects. *)
Lemma distinct_keys_not_enough :
  (∀ L : GoLibrary,
     let ops := [("a.b", SInt 1); ("a", SInt 2)] in
     NoDup (paths_of ops) ∧
     (ctx ← Init Background; SetAll ctx ops;; MarshalJSON ctx) ∅
     = Returns (js "{'a':2}") (store 0 [("a", VInt 2)] ∅) ∧
     ¬ serialises_as_set Background ∅ ops) ∧
  (∀ L : GoLibrary,
     let ops := [("a", SInt 1); ("a.b", SInt 2)] in
     NoDup (paths_of ops) ∧
     (ctx ← Init Background; SetAll ctx ops;; MarshalJSON ctx) ∅ = Panics ∧
     ¬ serialises_as_set Background ∅ ops) ∧
  (∀ L : GoLibrary,
     let ops := [("x", SFloat nan)] in
     NoDup (paths_of ops) ∧ prefix_free (paths_of ops) ∧
     (ctx ← Init Background; SetAll ctx ops;; MarshalJSON ctx) ∅
     = Returns EmptyString (store 0 [("x", VFloat nan)] ∅) ∧
     ¬ serialises_as_set Background ∅ ops) ∧
  (∀ L : GoLibrary,
     let ops := [(deep_key, SInt 1)] in
     NoDup (paths_of ops) ∧ prefix_free (paths_of ops) ∧
     Forall (λ op, json_encodable op.2 = true) ops ∧
     Forall (λ p, Z.of_nat (length p) = (maxNestingDepth + 1)%Z)
       (paths_of ops) ∧
     (ctx ← Init Background; SetAll ctx ops;; MarshalJSON ctx) ∅
     = Returns EmptyString
         (store 0 (chain_store (Z.to_nat maxNestingDepth) (VInt 1)) ∅) ∧
     ¬ serialises_as_set Background ∅ ops).
Proof.
  split_and!; intros L ops.
  - assert ((ctx ← Init Background; SetAll ctx ops;; MarshalJSON ctx) ∅
            = Returns (js "{'a':2}") (store 0 [("a", VInt 2)] ∅)) as Hc
      by (vm_compute; reflexivity).
    split_and!; [apply (bool_decide_unpack _); vm_compute; exact I | done |].
    intros (c & state & s & _ & Hrun & _ & Hin & _).
    rewrite Hc in Hrun. apply Returns_inj in Hrun as [_ <-%store_empty_inj].
    specialize (Hin "a.b" (SInt 1)). discriminate Hin. left.
  - assert ((ctx ← Init Background; SetAll ctx ops;; MarshalJSON ctx) ∅
            = Panics) as Hc by (vm_compute; reflexivity).
    split_and!; [apply (bool_decide_unpack _); vm_compute; exact I | done |].
    intros (c & state & s & _ & Hrun & _). by rewrite Hc in Hrun.
  - assert ((ctx ← Init Background; SetAll ctx ops;; MarshalJSON ctx) ∅
            = Returns EmptyString (store 0 [("x", VFloat nan)] ∅)) as Hc
      by (vm_compute; reflexivity).
    split_and!; [ | | done | ].
    + apply (bool_decide_unpack _); vm_compute; exact I.
    + apply prefix_free_Forall. apply (bool_decide_unpack _). vm_compute.
      exact I.
    + intros (c & state & s & _ & Hrun & Hm & _).
      rewrite Hc in Hrun. apply Returns_inj in Hrun as [<- <-%store_empty_inj].
      vm_compute in Hm. discriminate Hm.
  - assert (maxNestingDepth ≤ Z.of_nat (Z.to_nat maxNestingDepth))%Z as Hn
      by (unfold maxNestingDepth; lia).
    unfold ops, deep_key. rewrite paths_of_singleton, chain_key_path.
    split_and!.
    + apply NoDup_singleton.
    + apply prefix_free_singleton.
    + by repeat constructor.
    + apply Forall_singleton. rewrite length_replicate.
      unfold maxNestingDepth. lia.
    + exact (chain_run _ (SInt 1) Hn).
    + exact (chain_not_serialised _ (SInt 1) Hn).
Qed.

(** C6, the case the code misses.  A context that holds a value of another
    type under [contextKey] holds no store; [Init] returns it as it is, and
    the calls that follow find no store. *)
Example Init_keeps_foreign_value :
  ∀ L : GoLibrary,
    let ctx := WithValue Background contextKey (Foreign 0) in
    no_store ctx ∧
    Init ctx ∅ = Returns ctx ∅ ∧
    (ctx' ← Init ctx; SetInt ctx' "a" 1;; MarshalJSON ctx') ∅
    = Returns EmptyString ∅.
Proof. intros L ctx. split_and!; reflexivity. Qed.

(** The repository's own tests. *)
Example TestCanonical_SetInt :
  (ctx ← Init Background;
   SetInt ctx "foo.bar" 1;; SetInt ctx "foo.baz" 2;; MarshalJSON ctx) ∅
  = Returns (js "{'foo':{'bar':1,'baz':2}}")
      (store 0 [("foo", VMap [("bar", VInt 1); ("baz", VInt 2)])] ∅).
Proof. vm_compute. reflexivity. Qed.

Example TestCanonical_Nested :
  (ctx ← Init Background;
   SetString ctx "request_id" "req-123";;
   SetString (WithValue ctx "foo" (Foreign 0)) "user_id" "123";;
   MarshalJSON ctx) ∅
  = Returns (js "{'request_id':'req-123','user_id':'123'}")
      (store 0 [("request_id", VString "req-123");
                ("user_id", VString "123")] ∅).
Proof. vm_compute. reflexivity. Qed.

Example TestCanonical_AddInt :
  (ctx ← Init Background;
   AddInt ctx "foo.bar" 1;; AddInt ctx "foo.bar" 1;; MarshalJSON ctx) ∅
  = Returns (js "{'foo':{'bar':2}}")
      (store 0 [("foo", VMap [("bar", VInt 2)])] ∅).
Proof. vm_compute. reflexivity. Qed.

Example TestCanonical_AddFloat64 :
  (ctx ← Init Background;
   AddFloat64 ctx "foo.bar" 1.1;; AddFloat64 ctx "foo.bar" 1.2) ∅
  = Returns tt (store 0 [("foo", VMap [("bar", VFloat 2.3)])] ∅).
Proof. vm_compute. reflexivity. Qed.

Example TestCanonical_MultiNested :
  (ctx ← Init Background;
   SetString ctx "http.request.path" "/foo";;
   SetString ctx "http.request.code" "200";;
   SetInt ctx "http.response.duration_ms" 10;;
   MarshalJSON ctx) ∅
  = Returns
      (js "{'http':{'request':{'path':'/foo','code':'200'},'response':{'duration_ms':10}}}")
      (store 0
         [("http", VMap [("request", VMap [("path", VString "/foo");
                                           ("code", VString "200")]);
                         ("response", VMap [("duration_ms", VInt 10)])])] ∅).
Proof. vm_compute. reflexivity. Qed.

Example TestCanonicalLogger_ServeHTTP :
  ServeHTTP quiet_logger (GET_test Background) ∅
  = logFn quiet_logger
      (js "{'http':{'request':{'method':'GET','path':'/test','body_bytes':0},'response':{'duration_ms':0,'body_bytes':2,'status_code':200}}}")
      (store 0
         [("http",
           VMap [("request", VMap [("method", VString "GET");
                                   ("path", VString "/test");
                                   ("body_bytes", VInt 0)]);
                 ("response", VMap [("duration_ms", VInt 0);
                                    ("body_bytes", VInt 2);
                                    ("status_code", VInt 200)])])] ∅).
Proof. vm_compute. reflexivity. Qed.

End runs.

